(** * helmet: input smoothing and audio feedback of the portfolio scene

    A shallow embedding of [src/components/GlobalClickSound.tsx] (module
    [Sound]) and of the two revisions of the fiber scene (module [Scene]),
    followed by the properties the specification states about them.

    Numbers.  A TypeScript [number] is read the way the specification reads
    it, as a real number.  The sound component only adds, subtracts,
    multiplies and divides by constants and compares, so its model runs over
    the rationals [Q]: every definition computes, and the decimal literals
    of the source are exact.  The scene calls [Math.pow] with a fractional
    exponent, so its model runs over [R] with [Rpower].  Rounding, NaN and
    the infinities of IEEE doubles are outside both models. *)

From Stdlib Require Import QArith Qminmax Qround Qabs.
From Stdlib Require Import ZArith List Lia String Bool.
From Stdlib Require Import Reals.
From Stdlib Require Import Psatz.
Import ListNotations.

(* ===================================================================== *)
(** * GlobalClickSound.tsx                                                *)
(* ===================================================================== *)

Module Sound.

Local Open Scope Q_scope.

(** ** [approach] (lines 10-14) *)

Definition approach (current target maxDelta : Q) : Q :=
  if Qlt_le_dec current target then Qmin target (current + maxDelta)
  else if Qlt_le_dec target current then Qmax target (current - maxDelta)
  else current.

(** [n] successive steps toward a fixed target with a fixed [maxDelta]. *)
Fixpoint approach_iter (n : nat) (current target maxDelta : Q) : Q :=
  match n with
  | O => current
  | S k => approach (approach_iter k current target maxDelta) target maxDelta
  end.

(** [between a b x]: [x] lies in the closed interval spanned by [a] and [b],
    whichever of the two is the smaller. *)
Definition between (a b x : Q) : Prop :=
  Qmin a b <= x /\ x <= Qmax a b.

(** ** The DOM audio element and the store it lives in

    [playCalls] is a ghost field: it counts the invocations of [play()] the
    element has received, which is what the specification calls a playback
    invocation.  The other fields are the attributes the source reads or
    writes. *)

Record HTMLAudioElement := mkAudio {
  src : string;
  preload : string;
  loop : bool;
  volume : Q;
  playbackRate : Q;
  currentTime : Q;
  paused : bool;
  playCalls : nat
}.

(** [new Audio(url)]: a paused element at position 0 with the default
    volume and rate. *)
Definition newAudio (url : string) : HTMLAudioElement :=
  mkAudio url EmptyString false 1 1 0 true 0.

Definition set_preload (v : string) (a : HTMLAudioElement) :=
  mkAudio (src a) v (loop a) (volume a) (playbackRate a) (currentTime a)
          (paused a) (playCalls a).
Definition set_loop (v : bool) (a : HTMLAudioElement) :=
  mkAudio (src a) (preload a) v (volume a) (playbackRate a) (currentTime a)
          (paused a) (playCalls a).
Definition set_volume (v : Q) (a : HTMLAudioElement) :=
  mkAudio (src a) (preload a) (loop a) v (playbackRate a) (currentTime a)
          (paused a) (playCalls a).
Definition set_playbackRate (v : Q) (a : HTMLAudioElement) :=
  mkAudio (src a) (preload a) (loop a) (volume a) v (currentTime a)
          (paused a) (playCalls a).
Definition set_currentTime (v : Q) (a : HTMLAudioElement) :=
  mkAudio (src a) (preload a) (loop a) (volume a) (playbackRate a) v
          (paused a) (playCalls a).

(** [audio.play()]: one more invocation, and the element is no longer
    paused.  [audio.pause()] sets the flag again.  The request to play is
    taken as granted: a refusal by the platform, after which the element
    would stay paused, is not modelled; the count of invocations does not
    depend on it. *)
Definition play (a : HTMLAudioElement) :=
  mkAudio (src a) (preload a) (loop a) (volume a) (playbackRate a)
          (currentTime a) false (S (playCalls a)).
Definition pause (a : HTMLAudioElement) :=
  mkAudio (src a) (preload a) (loop a) (volume a) (playbackRate a)
          (currentTime a) true (playCalls a).

(** Audio elements are objects: the pools and the refs hold references to
    them.  The store is the list of all elements created so far, a
    reference is a position in it. *)
Definition addr := nat.
Definition Heap := list HTMLAudioElement.

Definition alloc (h : Heap) (a : HTMLAudioElement) : Heap * addr :=
  (h ++ [a], List.length h).

Definition deref (h : Heap) (p : addr) : option HTMLAudioElement :=
  nth_error h p.

Fixpoint update (h : Heap) (p : addr)
         (f : HTMLAudioElement -> HTMLAudioElement) : Heap :=
  match h, p with
  | [], _ => []
  | a :: t, O => f a :: t
  | a :: t, S q => a :: update t q f
  end.

(** Number of [play()] invocations received by all elements together. *)
Fixpoint totalPlayCalls (h : Heap) : nat :=
  match h with
  | [] => O
  | a :: t => (playCalls a + totalPlayCalls t)%nat
  end.

(** ** [AudioPool] (lines 5-8) and [makeAudioPool] (lines 16-25)

    [nextIndex] is a JavaScript number: [(i + 1) % 0] is [NaN], and that
    case is kept. *)

Inductive JsIndex := Idx (i : nat) | NaN.

Record AudioPool := mkPool {
  nextIndex : JsIndex;
  clips : list addr
}.

(** [Array.from({ length: poolSize }, () => { ... })] *)
Fixpoint allocClips (h : Heap) (url : string) (vol : Q) (poolSize : nat)
  : Heap * list addr :=
  match poolSize with
  | O => (h, [])
  | S k =>
      let '(h1, p) := alloc h (set_volume vol (set_preload "auto" (newAudio url))) in
      let '(h2, ps) := allocClips h1 url vol k in
      (h2, p :: ps)
  end.

Definition makeAudioPool (h : Heap) (url : string) (poolSize : nat) (vol : Q)
  : Heap * AudioPool :=
  let '(h', cs) := allocClips h url vol poolSize in
  (h', mkPool (Idx 0) cs).

(** ** Component state: the refs of lines 31-40 and the closure variable
    [lastRafAt] of line 111 *)

Record State := mkState {
  heap : Heap;
  clickPoolsRef : option (list AudioPool);
  scrollAudioRef : option addr;
  lastPointerDownAtRef : Q;
  lastWheelAtRef : Q;
  wheelIntensityRef : Q;
  scrollTargetRateRef : Q;
  scrollCurrentRateRef : Q;
  scrollTargetVolRef : Q;
  scrollCurrentVolRef : Q;
  lastRafAt : Q
}.

Definition clickUrls : list string :=
  ["/sounds/clickDown.mp3"; "/sounds/clickUp.mp3"]%string.
Definition scrollUrl : string := "/sounds/scroll.mp3".

(** [clickUrls.map((url) => makeAudioPool(url, 4, 0.35))] *)
Fixpoint makePools (h : Heap) (urls : list string) : Heap * list AudioPool :=
  match urls with
  | [] => (h, [])
  | url :: rest =>
      let '(h1, pool) := makeAudioPool h url 4 0.35 in
      let '(h2, pools) := makePools h1 rest in
      (h2, pool :: pools)
  end.

(** The effect body, lines 43-49 and 110-111, run when [performance.now()]
    reads [now]: the state the three handlers start from. *)
Definition mount (now : Q) : State :=
  let '(h1, pools) := makePools [] clickUrls in
  let '(h2, scrollAudio) :=
    alloc h1 (set_playbackRate 1 (set_volume 0 (set_loop true
               (set_preload "auto" (newAudio scrollUrl))))) in
  mkState h2 (Some pools) (Some scrollAudio) 0 0 0 1 1 0 0 now.

(** ** [onPointerDown] (lines 51-77) *)

(** [(pool.nextIndex + 1) % pool.clips.length] *)
Definition nextCursor (i : JsIndex) (len : nat) : JsIndex :=
  match i, len with
  | Idx n, S _ => Idx ((n + 1) mod len)
  | _, _ => NaN
  end.

(** [pool.clips[pool.nextIndex]]; [None] is [undefined]. *)
Definition clipAt (pool : AudioPool) : option addr :=
  match nextIndex pool with
  | Idx i => nth_error (clips pool) i
  | NaN => None
  end.

(** Lines 68-76: take the clip under the cursor, advance the cursor, rewind
    and play the clip.  On [undefined] the assignment to [currentTime]
    throws inside the [try], and the [catch] swallows it. *)
Definition playNext (h : Heap) (pool : AudioPool) : Heap * AudioPool :=
  let audio := clipAt pool in
  let pool' :=
    mkPool (nextCursor (nextIndex pool) (List.length (clips pool))) (clips pool) in
  match audio with
  | Some a => (update (update h a (set_currentTime 0)) a play, pool')
  | None => (h, pool')
  end.

(** [l[i]] for a JavaScript number [i] that is an integer. *)
Definition index {A : Type} (l : list A) (i : Z) : option A :=
  if (i <? 0)%Z then None else nth_error l (Z.to_nat i).

Fixpoint replaceAt {A : Type} (l : list A) (i : nat) (x : A) : list A :=
  match l, i with
  | [], _ => []
  | _ :: t, O => x :: t
  | y :: t, S j => y :: replaceAt t j x
  end.

Definition set_heap (h : Heap) (s : State) : State :=
  mkState h (clickPoolsRef s) (scrollAudioRef s) (lastPointerDownAtRef s)
          (lastWheelAtRef s) (wheelIntensityRef s) (scrollTargetRateRef s)
          (scrollCurrentRateRef s) (scrollTargetVolRef s)
          (scrollCurrentVolRef s) (lastRafAt s).
Definition set_clickPools (ps : list AudioPool) (s : State) : State :=
  mkState (heap s) (Some ps) (scrollAudioRef s) (lastPointerDownAtRef s)
          (lastWheelAtRef s) (wheelIntensityRef s) (scrollTargetRateRef s)
          (scrollCurrentRateRef s) (scrollTargetVolRef s)
          (scrollCurrentVolRef s) (lastRafAt s).
Definition set_lastPointerDownAt (t : Q) (s : State) : State :=
  mkState (heap s) (clickPoolsRef s) (scrollAudioRef s) t
          (lastWheelAtRef s) (wheelIntensityRef s) (scrollTargetRateRef s)
          (scrollCurrentRateRef s) (scrollTargetVolRef s)
          (scrollCurrentVolRef s) (lastRafAt s).

(** [button] is [Some b] when [typeof event.button === "number"], [None]
    otherwise; [now] is what [performance.now()] returns and [random] what
    [Math.random()] returns during the call. *)
Definition onPointerDown (button : option Z) (now random : Q) (s : State)
  : State :=
  if match button with Some b => negb (b =? 0)%Z | None => false end
  then s
  else if Qlt_le_dec (now - lastPointerDownAtRef s) 25 then s
  else
    let s1 := set_lastPointerDownAt now s in
    match clickPoolsRef s1 with
    | None => s1
    | Some [] => s1
    | Some pools =>
        let i := Qfloor (random * inject_Z (Z.of_nat (List.length pools))) in
        match index pools i with
        | None => s1
        | Some pool =>
            let '(h', pool') := playNext (heap s1) pool in
            set_clickPools (replaceAt pools (Z.to_nat i) pool') (set_heap h' s1)
        end
    end.

(** ** [onWheel] (lines 79-108) *)

Definition onWheel (now deltaY : Q) (s : State) : State :=
  match scrollAudioRef s with
  | None => s
  | Some scrollAudio =>
      let dtWheel := Qmin 0.05 (Qmax 0.001 ((now - lastWheelAtRef s) / 1000)) in
      let raw := Qabs deltaY in
      let clamped := Qmin 220 raw in
      let intensity := approach (wheelIntensityRef s) clamped (900 * dtWheel) in
      let normalized := Qmin 1 (intensity / 120) in
      let targetRate := 1 + normalized * 0.55 in
      let targetVol := normalized * 0.32 in
      let h :=
        match deref (heap s) scrollAudio with
        | Some a => if paused a then update (heap s) scrollAudio play else heap s
        | None => heap s
        end in
      mkState h (clickPoolsRef s) (scrollAudioRef s) (lastPointerDownAtRef s)
              now intensity targetRate (scrollCurrentRateRef s) targetVol
              (scrollCurrentVolRef s) (lastRafAt s)
  end.

(** ** [tick] (lines 112-149); the re-registration with
    [requestAnimationFrame] is the host delivering the next frame. *)

Definition tick (now : Q) (s : State) : State :=
  match scrollAudioRef s with
  | None => s
  | Some scrollAudio =>
      let dt := Qmin 0.05 ((now - lastRafAt s) / 1000) in
      let sinceWheel := now - lastWheelAtRef s in
      let decaying := if Qlt_le_dec 90 sinceWheel then true else false in
      let targetVol :=
        if decaying then Qmax 0 (scrollTargetVolRef s - 0.9 * dt)
        else scrollTargetVolRef s in
      let targetRate :=
        if decaying then approach (scrollTargetRateRef s) 1 (1.2 * dt)
        else scrollTargetRateRef s in
      let currentRate := approach (scrollCurrentRateRef s) targetRate (3.0 * dt) in
      let currentVol := approach (scrollCurrentVolRef s) targetVol (2.0 * dt) in
      let h1 := update (heap s) scrollAudio (set_playbackRate currentRate) in
      let h2 := update h1 scrollAudio (set_volume currentVol) in
      let h3 :=
        if (if Qlt_le_dec 220 sinceWheel then true else false)
           && (if Qlt_le_dec currentVol 0.01 then true else false)
        then update (update h2 scrollAudio pause) scrollAudio (set_currentTime 0)
        else h2 in
      mkState h3 (clickPoolsRef s) (scrollAudioRef s) (lastPointerDownAtRef s)
              (lastWheelAtRef s) (wheelIntensityRef s) targetRate currentRate
              targetVol currentVol now
  end.

(** ** The host: events delivered one after the other *)

Inductive Event :=
| PointerDown (button : option Z) (now random : Q)
| Wheel (now deltaY : Q)
| AnimationFrame (now : Q).

Definition handle (s : State) (e : Event) : State :=
  match e with
  | PointerDown b now r => onPointerDown b now r s
  | Wheel now dy => onWheel now dy s
  | AnimationFrame now => tick now s
  end.

Definition run (s : State) (evs : list Event) : State :=
  fold_left handle evs s.

Definition eventTime (e : Event) : Q :=
  match e with
  | PointerDown _ now _ => now
  | Wheel now _ => now
  | AnimationFrame now => now
  end.

(** [performance.now()] never goes back: each event is stamped no earlier
    than the one before it, the first no earlier than [t]. *)
Fixpoint chronological (t : Q) (evs : list Event) : Prop :=
  match evs with
  | [] => True
  | e :: rest => t <= eventTime e /\ chronological (eventTime e) rest
  end.

(** Frames only, at the given times. *)
Definition ticks (s : State) (times : list Q) : State :=
  fold_left (fun st now => tick now st) times s.

(** Frames at least [gap] milliseconds apart, the first at least [gap]
    after [t]. *)
Fixpoint paced (gap t : Q) (times : list Q) : Prop :=
  match times with
  | [] => True
  | now :: rest => t + gap <= now /\ paced gap now rest
  end.

(** The audio element behind [scrollAudioRef]. *)
Definition scrollAudioOf (s : State) : option HTMLAudioElement :=
  match scrollAudioRef s with
  | Some a => deref (heap s) a
  | None => None
  end.

(** [n] plays in a row drawn from one pool (lines 68-76, [n] times). *)
Fixpoint playMany (n : nat) (h : Heap) (pool : AudioPool) : Heap * AudioPool :=
  match n with
  | O => (h, pool)
  | S k => let '(h1, pool1) := playMany k h pool in playNext h1 pool1
  end.

(** ** Vocabulary of the statements *)

(** A natural number as a rational. *)
Definition Qnat (n : nat) : Q := inject_Z (Z.of_nat n).

(** The cursor of the pool points at one of its clips, and the clips are
    elements of the store. *)
Definition poolReady (h : Heap) (pool : AudioPool) : Prop :=
  exists i : nat,
    nextIndex pool = Idx i /\ (i < List.length (clips pool))%nat
    /\ Forall (fun a : addr => (a < List.length h)%nat) (clips pool).

Definition poolsReady (s : State) : Prop :=
  exists pools : list AudioPool,
    clickPoolsRef s = Some pools /\ pools <> []
    /\ Forall (poolReady (heap s)) pools.

Definition scrollReady (s : State) : Prop :=
  exists a : addr, scrollAudioRef s = Some a /\ (a < List.length (heap s))%nat.

(** The ranges the wheel handler and the frame keep the levels in. *)
Definition levelsInRange (s : State) : Prop :=
  0 <= wheelIntensityRef s <= 220
  /\ 1 <= scrollTargetRateRef s <= 1.55
  /\ 1 <= scrollCurrentRateRef s <= 1.55
  /\ 0 <= scrollTargetVolRef s <= 0.32
  /\ 0 <= scrollCurrentVolRef s <= 0.32.

Definition Inv (s : State) : Prop :=
  poolsReady s /\ scrollReady s /\ levelsInRange s.

(** [play()] invocations received so far by the clips [cs]. *)
Fixpoint playsOf (h : Heap) (cs : list addr) : nat :=
  match cs with
  | [] => O
  | a :: rest =>
      (match deref h a with Some x => playCalls x | None => O end
       + playsOf h rest)%nat
  end.

(** The cursor of the pool is the number of plays its clips have received,
    modulo the pool size. *)
Definition cursorCountsPlays (h : Heap) (pool : AudioPool) : Prop :=
  nextIndex pool = Idx (playsOf h (clips pool) mod List.length (clips pool)).

(** No clip belongs to two pools or twice to one, and the scroll clip
    belongs to none. *)
Definition clipsSeparate (s : State) (pools : list AudioPool) : Prop :=
  NoDup (flat_map clips pools)
  /\ forall a : addr, scrollAudioRef s = Some a -> ~ In a (flat_map clips pools).

Definition Counting (s : State) : Prop :=
  exists pools : list AudioPool,
    clickPoolsRef s = Some pools
    /\ clipsSeparate s pools
    /\ Forall (poolReady (heap s)) pools
    /\ Forall (cursorCountsPlays (heap s)) pools.

(** The scroll clip carries the eased volume and rate. *)
Definition clipTracksLevels (s : State) : Prop :=
  exists a : HTMLAudioElement,
    scrollAudioOf s = Some a
    /\ volume a = scrollCurrentVolRef s
    /\ playbackRate a = scrollCurrentRateRef s.

End Sound.

(* ===================================================================== *)
(** * The fiber scene (two revisions: part_000 and part_001)              *)
(* ===================================================================== *)

Module Scene.

Local Open Scope R_scope.

(** The two revisions differ, for what is modelled here, in the number of
    tile rows, in the hover slowdown of part_000, and in that only part_001
    mounts the grid plane. *)
Inductive Revision := Part000 | Part001.

(** ** three.js [Vector2] *)

Record Vector2 := mkVector2 { vx : R; vy : R }.

(** [v.lerp(w, alpha)]: [v.x += (w.x - v.x) * alpha], and the same for y. *)
Definition lerp (v w : Vector2) (alpha : R) : Vector2 :=
  mkVector2 (vx v + (vx w - vx v) * alpha) (vy v + (vy w - vy v) * alpha).

(** ** State: the refs of [FiberScene] and [ImageTube], and the [uCenter]
    and [uTime] uniforms of [GridPlane].

    [wraps] is a ghost field: the number of loop heights the wrap has taken
    off so far (negative when it has added them). *)

Record State := mkState {
  targetCenterUv : Vector2;
  uCenter : Vector2;
  uTime : R;
  tubeScrollTarget : R;
  tubeSpinVelocity : R;
  tubeNaturalDir : R;
  tubeAngle : R;
  scrollCurrent : R;
  angle : R;
  isHovering : bool;
  speedMultiplier : R;
  wraps : Z
}.

Definition initial : State :=
  mkState (mkVector2 0.5 0.5) (mkVector2 0.5 0.5) 0 0 0 1 0 0 0 false 1 0%Z.

(** ** [ImageTube] constants *)

Definition rows (rev : Revision) : R :=
  match rev with Part000 => 3 | Part001 => 5 end.
Definition ySpacing : R := 2.7.
Definition loopHeight (rev : Revision) : R := rows rev * ySpacing.
Definition damping : R := 0.92.

(** ** [GridPlane]'s [useFrame] (lines 30-37); [mesh] tells whether
    [meshRef.current] is set. *)
Definition GridPlane_useFrame (mesh : bool) (elapsed : R) (s : State) : State :=
  if mesh then
    mkState (targetCenterUv s) (lerp (uCenter s) (targetCenterUv s) 0.08)
            elapsed (tubeScrollTarget s) (tubeSpinVelocity s)
            (tubeNaturalDir s) (tubeAngle s) (scrollCurrent s) (angle s)
            (isHovering s) (speedMultiplier s) (wraps s)
  else s.

(** ** [ImageTube]'s [useFrame], the part that writes refs
    (part_000 lines 248-269, part_001 lines 236-253) *)

(** The eased scroll position, before the wrap. *)
Definition easeScroll (current target : R) : R :=
  current + (target - current) * 0.12.

(** The wrap: the new current position, the new target and the new count
    of loop heights taken off. *)
Definition wrapScroll (L current target : R) (w : Z) : R * R * Z :=
  if Rlt_dec (L / 2) current then (current - L, target - L, (w + 1)%Z)
  else if Rlt_dec current (- L / 2) then (current + L, target + L, (w - 1)%Z)
  else (current, target, w).

(** [spinVelocity *= Math.pow(damping, dt * 60)] *)
Definition decaySpin (dt v : R) : R := v * Rpower damping (dt * 60).

(** [Math.max(-2.0, Math.min(2.0, v))] *)
Definition clampSpin (v : R) : R := Rmax (-2.0) (Rmin 2.0 v).

Definition ImageTube_useFrame (rev : Revision) (dt : R) (s : State) : State :=
  let '(current, target, w) :=
    wrapScroll (loopHeight rev)
               (easeScroll (scrollCurrent s) (tubeScrollTarget s))
               (tubeScrollTarget s) (wraps s) in
  let multiplier :=
    match rev with
    | Part000 =>
        let targetMultiplier := if isHovering s then 0.05 else 1 in
        speedMultiplier s + (targetMultiplier - speedMultiplier s) * 0.1
    | Part001 => speedMultiplier s
    end in
  let spin := clampSpin (decaySpin dt (tubeSpinVelocity s)) in
  let baseSpeed :=
    match rev with
    | Part000 => tubeNaturalDir s * 0.25 * multiplier
    | Part001 => tubeNaturalDir s * 0.25
    end in
  let angle' :=
    match rev with
    | Part000 => angle s + (baseSpeed + spin * multiplier) * dt
    | Part001 => angle s + (baseSpeed + spin) * dt
    end in
  mkState (targetCenterUv s) (uCenter s) (uTime s) target spin
          (tubeNaturalDir s) angle' current angle' (isHovering s) multiplier w.

(** ** [FiberScene] handlers *)

Definition clamp01 (x : R) : R := Rmin 1 (Rmax 0 x).

Definition set_targetCenterUv (v : Vector2) (s : State) : State :=
  mkState v (uCenter s) (uTime s) (tubeScrollTarget s) (tubeSpinVelocity s)
          (tubeNaturalDir s) (tubeAngle s) (scrollCurrent s) (angle s)
          (isHovering s) (speedMultiplier s) (wraps s).

(** [rect] is [event.currentTarget.getBoundingClientRect()]. *)
Definition onPointerMove (clientX clientY left top width height : R)
           (s : State) : State :=
  if Rle_dec width 0 then s
  else if Rle_dec height 0 then s
  else
    let nx := (clientX - left) / width in
    let ny := (clientY - top) / height in
    let clampedX := clamp01 nx in
    let clampedY := clamp01 ny in
    let uvX := clampedX in
    let uvY := 1 - clampedY in
    let strength := 0.4 in
    let cx := 0.5 + (uvX - 0.5) * strength in
    let cy := 0.5 + (uvY - 0.5) * strength in
    set_targetCenterUv (mkVector2 (clamp01 cx) (clamp01 cy)) s.

Definition onPointerLeave (s : State) : State :=
  set_targetCenterUv (mkVector2 0.5 0.5) s.

Definition onWheel (deltaY : R) (s : State) : State :=
  let dir :=
    if Rlt_dec deltaY 0 then -1
    else if Rlt_dec 0 deltaY then 1
    else tubeNaturalDir s in
  mkState (targetCenterUv s) (uCenter s) (uTime s)
          (tubeScrollTarget s + deltaY * 0.002)
          (tubeSpinVelocity s + deltaY * 0.004)
          dir (tubeAngle s) (scrollCurrent s) (angle s)
          (isHovering s) (speedMultiplier s) (wraps s).

(** [handleHover] of part_000: [isHovering.current = projectName !== null]. *)
Definition handleHover (hovering : bool) (s : State) : State :=
  mkState (targetCenterUv s) (uCenter s) (uTime s) (tubeScrollTarget s)
          (tubeSpinVelocity s) (tubeNaturalDir s) (tubeAngle s)
          (scrollCurrent s) (angle s) hovering (speedMultiplier s) (wraps s).

(** ** The host *)

Inductive Input :=
| PointerMove (clientX clientY left top width height : R)
| PointerLeave
| WheelInput (deltaY : R)
| Hover (hovering : bool)
| Frame (elapsed dt : R).

(** One rendered frame: the [useFrame] callbacks in mount order. *)
Definition frame (rev : Revision) (elapsed dt : R) (s : State) : State :=
  match rev with
  | Part000 => ImageTube_useFrame rev dt s
  | Part001 => ImageTube_useFrame rev dt (GridPlane_useFrame true elapsed s)
  end.

Definition step (rev : Revision) (s : State) (i : Input) : State :=
  match i with
  | PointerMove x y l t w h => onPointerMove x y l t w h s
  | PointerLeave => onPointerLeave s
  | WheelInput dy => onWheel dy s
  | Hover b => match rev with Part000 => handleHover b s | Part001 => s end
  | Frame elapsed dt => frame rev elapsed dt s
  end.

Definition run (rev : Revision) (s : State) (inputs : list Input) : State :=
  fold_left (step rev) inputs s.

(** The unwrapped scroll position and target: the loop heights the wrap
    took off are added back. *)
Definition unwrappedCurrent (rev : Revision) (s : State) : R :=
  scrollCurrent s + IZR (wraps s) * loopHeight rev.
Definition unwrappedTarget (rev : Revision) (s : State) : R :=
  tubeScrollTarget s + IZR (wraps s) * loopHeight rev.

(** The unwrapped scroll position after each frame of a run, oldest first. *)
Fixpoint unwrappedTrace (rev : Revision) (s : State) (inputs : list Input)
  : list R :=
  match inputs with
  | [] => []
  | i :: rest =>
      let s' := step rev s i in
      match i with
      | Frame _ _ => unwrappedCurrent rev s' :: unwrappedTrace rev s' rest
      | _ => unwrappedTrace rev s' rest
      end
  end.

(** No wheel input of the run scrolls backwards. *)
Fixpoint forwardOnly (inputs : list Input) : Prop :=
  match inputs with
  | [] => True
  | WheelInput dy :: rest => 0 <= dy /\ forwardOnly rest
  | _ :: rest => forwardOnly rest
  end.

(** A list of reals that never decreases from one entry to the next. *)
Fixpoint nondecreasing (l : list R) : Prop :=
  match l with
  | [] => True
  | x :: rest =>
      match rest with
      | [] => True
      | y :: _ => x <= y /\ nondecreasing rest
      end
  end.

Definition inSquare (v : Vector2) : Prop :=
  0.3 <= vx v <= 0.7 /\ 0.3 <= vy v <= 0.7.

(** ** [ImageTube] layout (part_000 lines 218-246 and 297-311,
    part_001 lines 206-234 and 269-282) *)

Definition rowCount (rev : Revision) : nat :=
  match rev with Part000 => 3 | Part001 => 5 end.
Definition cols (rev : Revision) : nat :=
  match rev with Part000 => 6 | Part001 => 5 end.
Definition radius : R := 4.
Definition repeatCount : nat := 3.
Definition totalRows (rev : Revision) : nat := (rowCount rev * repeatCount)%nat.

(** [imageUrls.length] *)
Definition imageCount : nat := 7.

(** The body of the [rowSpeed] loop for row [r] of [rows]. *)
Definition rowSpeedOf (rows r : nat) : R :=
  let t := if (rows <=? 1)%nat then 0 else INR r / (INR rows - 1) in
  0.65 + t * 0.9.

Definition rowSpeed (rows : nat) : list R :=
  map (rowSpeedOf rows) (seq 0 rows).

Record RowPosition := mkRow {
  rowIndex : nat;
  y : R;
  baseRow : nat;
  rowOffset : R
}.

(** The body of the [rowPositions] loop. *)
Definition rowPositionOf (rev : Revision) (i : nat) : RowPosition :=
  let yPos := (INR i - (INR (totalRows rev) - 1) / 2) * ySpacing in
  let base := (i mod rowCount rev)%nat in
  let offset := if (base mod 2 =? 0)%nat then 0 else 0.5 in
  mkRow i yPos base offset.

Definition rowPositions (rev : Revision) : list RowPosition :=
  map (rowPositionOf rev) (seq 0 (totalRows rev)).

(** One tile of a row: where it stands, how it is turned, and which
    texture it shows. *)
Record Tile := mkTile {
  tileX : R;
  tileZ : R;
  tileRy : R;
  texIndex : nat
}.

Definition tileOf (rev : Revision) (row : RowPosition) (col : nat) : Tile :=
  let theta := ((INR col + rowOffset row) / INR (cols rev)) * PI * 2 in
  mkTile (cos theta * radius) (sin theta * radius) (- (theta + PI / 2))
         ((baseRow row * cols rev + col) mod imageCount).

Definition rowTiles (rev : Revision) (row : RowPosition) : list Tile :=
  map (tileOf rev row) (seq 0 (cols rev)).

(** The rotation the frame gives row [i] (part_000 lines 287-292, part_001
    lines 259-264): [angle.current * rowSpeed[baseRow]]; [None] when
    [rowSpeed] has no such entry. *)
Definition rowRotationY (rev : Revision) (tubeAngleNow : R) (i : nat)
  : option R :=
  option_map (fun speed => tubeAngleNow * speed)
             (nth_error (rowSpeed (rowCount rev)) (i mod rowCount rev)).

(** ** [GridPlane]'s vertex shader (lines 47-72) *)

Definition uEdgeWidth : R := 0.14.
Definition uEdgeAmp : R := 1.35.
Definition uCenterRadius : R := 0.22.
Definition uCenterAmp : R := 0.9.

(** GLSL [clamp(x, lo, hi)] is [min(max(x, lo), hi)]. *)
Definition clamp (x lo hi : R) : R := Rmin (Rmax x lo) hi.

(** GLSL [smoothstep(edge0, edge1, x)]. *)
Definition smoothstep (edge0 edge1 x : R) : R :=
  let t := clamp ((x - edge0) / (edge1 - edge0)) 0 1 in
  t * t * (3 - 2 * t).

(** GLSL [distance] of two [vec2]. *)
Definition distance (a b : Vector2) : R :=
  sqrt ((vx a - vx b) * (vx a - vx b) + (vy a - vy b) * (vy a - vy b)).

(** [dEdge] of the shader: how far [vUv] is from the nearest side of the
    unit square. *)
Definition dEdge (vUv : Vector2) : R :=
  Rmin (Rmin (vx vUv) (1 - vx vUv)) (Rmin (vy vUv) (1 - vy vUv)).

(** The displacement [zOffset] the shader adds to [p.z] at [vUv]. *)
Definition zOffset (center vUv : Vector2) : R :=
  let edgeMask := 1 - smoothstep 0 uEdgeWidth (dEdge vUv) in
  let dCenter := distance vUv center in
  let centerMask := 1 - smoothstep 0 uCenterRadius dCenter in
  edgeMask * uEdgeAmp + centerMask * uCenterAmp.

(** ** Vocabulary of the further statements *)

(** A run made of frames only. *)
Fixpoint framesOnly (inputs : list Input) : Prop :=
  match inputs with
  | [] => True
  | Frame _ _ :: rest => framesOnly rest
  | _ :: _ => False
  end.

(** The multiplier the hover flag asks for. *)
Definition targetMultiplier (s : State) : R :=
  if isHovering s then 0.05 else 1.

End Scene.

(* ===================================================================== *)
(** * Properties of the sound component                                   *)
(* ===================================================================== *)

Module SoundSpec.

Import Sound.
Local Open Scope Q_scope.

(** Case analysis on every [Qmin], [Qmax] and [Qabs] in sight, leaving
    linear facts. *)
Ltac split_minmax :=
  repeat match goal with
  | |- context [Qmin ?a ?b] =>
      let H := fresh "Hmin" in let m := fresh "m" in
      pose proof (Q.min_spec a b) as H; set (m := Qmin a b) in *;
      clearbody m; destruct H as [[? ?]|[? ?]]
  | |- context [Qmax ?a ?b] =>
      let H := fresh "Hmax" in let m := fresh "m" in
      pose proof (Q.max_spec a b) as H; set (m := Qmax a b) in *;
      clearbody m; destruct H as [[? ?]|[? ?]]
  | H0 : context [Qmin ?a ?b] |- _ =>
      let H := fresh "Hmin" in let m := fresh "m" in
      pose proof (Q.min_spec a b) as H; set (m := Qmin a b) in *;
      clearbody m; destruct H as [[? ?]|[? ?]]
  | H0 : context [Qmax ?a ?b] |- _ =>
      let H := fresh "Hmax" in let m := fresh "m" in
      pose proof (Q.max_spec a b) as H; set (m := Qmax a b) in *;
      clearbody m; destruct H as [[? ?]|[? ?]]
  end.

Lemma Qabs_cases (a : Q) :
  (0 <= a /\ Qabs a == a) \/ (a <= 0 /\ Qabs a == - a).
Proof.
  destruct (Qlt_le_dec a 0).
  - right. split; [lra|]. apply Qabs_neg. lra.
  - left. split; [lra|]. apply Qabs_pos. lra.
Qed.

Ltac split_abs :=
  repeat match goal with
  | |- context [Qabs ?a] =>
      let H := fresh "Habs" in let m := fresh "m" in
      pose proof (Qabs_cases a) as H; set (m := Qabs a) in *;
      clearbody m; destruct H as [[? ?]|[? ?]]
  end.

Ltac approach_cases :=
  unfold approach in *;
  repeat match goal with
  | |- context [Qlt_le_dec ?a ?b] => destruct (Qlt_le_dec a b)
  | H : context [Qlt_le_dec ?a ?b] |- _ => destruct (Qlt_le_dec a b)
  end.

(** *** The model on concrete inputs *)

Example approach_examples :
  approach 0 1 (1 # 4) == 1 # 4 /\ approach 0 1 2 == 1
  /\ approach 5 1 3 == 2 /\ approach 5 1 9 == 1 /\ approach 1 1 3 == 1.
Proof. vm_compute. repeat split. Qed.

(** Three spaced clicks, all drawn from the first pool: that pool's cursor
    is at 3, the other's still at 0, and three plays were invoked. *)
Example three_clicks :
  let s := run (mount 0) [PointerDown (Some 0%Z) 100 0;
                          PointerDown (Some 0%Z) 200 (1 # 4);
                          PointerDown (Some 0%Z) 300 (49 # 100)] in
  option_map (map nextIndex) (clickPoolsRef s) = Some [Idx 3; Idx 0]
  /\ totalPlayCalls (heap s) = 3%nat
  /\ lastPointerDownAtRef s = 300.
Proof. vm_compute. repeat split. Qed.

(** One wheel event, then frames every 16 ms: the volume rises to its
    target, fades after 90 ms of silence, and the fourteenth frame, the
    first more than 220 ms after the event, pauses the clip. *)
Example wheel_then_silence :
  let s := run (mount 0) [Wheel 1000 (-300)] in
  let frames n := map (fun k => 1000 + 16 * Qnat k) (seq 1 n) in
  wheelIntensityRef s == 45
  /\ scrollTargetVolRef s == 0.12
  /\ option_map paused (scrollAudioOf s) = Some false
  /\ scrollCurrentVolRef (ticks s (frames 4%nat)) == 0.12
  /\ scrollCurrentVolRef (ticks s (frames 13%nat)) == 0.0048
  /\ option_map paused (scrollAudioOf (ticks s (frames 13%nat))) = Some false
  /\ scrollCurrentVolRef (ticks s (frames 14%nat)) == 0
  /\ option_map paused (scrollAudioOf (ticks s (frames 14%nat))) = Some true.
Proof. vm_compute. repeat split. Qed.

(** *** Basic facts about one step *)

Lemma approach_up (c t d : Q) :
  c <= t -> 0 <= d -> approach c t d == Qmin t (c + d).
Proof.
  intros Hc Hd. unfold approach.
  destruct (Qlt_le_dec c t); [reflexivity|].
  destruct (Qlt_le_dec t c); [lra|].
  split_minmax; lra.
Qed.

Lemma approach_down (c t d : Q) :
  t <= c -> 0 <= d -> approach c t d == Qmax t (c - d).
Proof.
  intros Hc Hd. unfold approach.
  destruct (Qlt_le_dec c t); [lra|].
  destruct (Qlt_le_dec t c); [reflexivity|].
  split_minmax; lra.
Qed.

Lemma approach_range (c t d lo hi : Q) :
  0 <= d -> lo <= c <= hi -> lo <= t <= hi -> lo <= approach c t d <= hi.
Proof.
  intros Hd Hc Ht. approach_cases; split_minmax; lra.
Qed.

(** C1. For [maxDelta >= 0] one step returns a value in the closed interval
    between the original [current] and [target]: it stays on the side of
    [target] it started from, it does not move away from [current] by more
    than [maxDelta], and it does not move away from [target]. *)
Theorem approach_stays_between (current target maxDelta : Q) :
  0 <= maxDelta ->
  between current target (approach current target maxDelta)
  /\ Qabs (approach current target maxDelta - current) <= maxDelta
  /\ Qabs (target - approach current target maxDelta)
     <= Qabs (target - current).
Proof.
  intros Hd. unfold between. repeat split.
  - approach_cases; split_minmax; lra.
  - approach_cases; split_minmax; lra.
  - approach_cases; split_minmax; split_abs; lra.
  - approach_cases; split_minmax; split_abs; lra.
Qed.

Lemma approach_stays_between_witness :
  between 0 1 (approach 0 1 (1 # 4))
  /\ Qabs (approach 0 1 (1 # 4) - 0) <= 1 # 4
  /\ Qabs (1 - approach 0 1 (1 # 4)) <= Qabs (1 - 0).
Proof.
  apply (approach_stays_between 0 1 (1 # 4)). vm_compute. discriminate.
Defined.

(** *** Repeated steps toward a fixed target *)

Lemma Qnat_S (n : nat) : Qnat (S n) == Qnat n + 1.
Proof.
  unfold Qnat. rewrite Nat2Z.inj_succ. unfold Z.succ.
  rewrite inject_Z_plus. reflexivity.
Qed.

Lemma Qnat_nonneg (n : nat) : 0 <= Qnat n.
Proof.
  unfold Qnat. change 0 with (inject_Z 0). rewrite <- Zle_Qle. lia.
Qed.

Lemma Qnat_le (n m : nat) : (n <= m)%nat -> Qnat n <= Qnat m.
Proof. intros H. unfold Qnat. rewrite <- Zle_Qle. lia. Qed.

(** The rationals are Archimedean: multiples of a positive step pass any
    bound. *)
Lemma archimedean (x d : Q) : 0 < d -> exists N : nat, x <= Qnat N * d.
Proof.
  intros Hd.
  exists (Z.to_nat (Z.max 0 (Qceiling (x / d)))).
  unfold Qnat. rewrite Z2Nat.id by lia.
  assert (H1 : x / d <= inject_Z (Z.max 0 (Qceiling (x / d)))).
  { eapply Qle_trans; [apply Qle_ceiling|]. rewrite <- Zle_Qle. lia. }
  assert (H2 : x == (x / d) * d) by (field; lra).
  rewrite H2 at 1. apply Qmult_le_compat_r; [exact H1 | lra].
Qed.

Lemma approach_iter_up (c t d : Q) (n : nat) :
  c <= t -> 0 <= d -> approach_iter n c t d == Qmin t (c + Qnat n * d).
Proof.
  intros Hc Hd. induction n as [|n IH].
  - cbn [approach_iter]. change (Qnat 0) with 0. split_minmax; lra.
  - simpl. pose proof (Qnat_S n) as HS. pose proof (Qnat_nonneg n) as Hn.
    assert (Hle : approach_iter n c t d <= t) by (rewrite IH; split_minmax; lra).
    rewrite (approach_up _ _ _ Hle Hd).
    set (x := approach_iter n c t d) in *. clearbody x.
    assert (HSd : Qnat (S n) * d == Qnat n * d + d) by (rewrite HS; ring).
    set (k := Qnat n * d) in *. set (k' := Qnat (S n) * d) in *.
    clearbody k k'. split_minmax; lra.
Qed.

Lemma approach_iter_down (c t d : Q) (n : nat) :
  t <= c -> 0 <= d -> approach_iter n c t d == Qmax t (c - Qnat n * d).
Proof.
  intros Hc Hd. induction n as [|n IH].
  - cbn [approach_iter]. change (Qnat 0) with 0. split_minmax; lra.
  - simpl. pose proof (Qnat_S n) as HS. pose proof (Qnat_nonneg n) as Hn.
    assert (Hle : t <= approach_iter n c t d) by (rewrite IH; split_minmax; lra).
    rewrite (approach_down _ _ _ Hle Hd).
    set (x := approach_iter n c t d) in *. clearbody x.
    assert (HSd : Qnat (S n) * d == Qnat n * d + d) by (rewrite HS; ring).
    set (k := Qnat n * d) in *. set (k' := Qnat (S n) * d) in *.
    clearbody k k'. split_minmax; lra.
Qed.

Lemma Qnat_mult_le (n m : nat) (d : Q) :
  0 <= d -> (n <= m)%nat -> Qnat n * d <= Qnat m * d.
Proof.
  intros Hd Hnm. apply Qmult_le_compat_r; [apply Qnat_le; exact Hnm | exact Hd].
Qed.

(** With [maxDelta = 0] the sequence never moves, so it never reaches a
    target it did not start at. *)
Lemma approach_iter_stalls :
  0 <= 0 /\ forall n : nat, ~ approach_iter n 0 1 0 == 1.
Proof.
  split; [lra|].
  assert (H : forall n, approach_iter n 0 1 0 == 0).
  { intros n. rewrite approach_iter_up by lra.
    pose proof (Qnat_nonneg n). split_minmax; lra. }
  intros n Hn. rewrite H in Hn. lra.
Qed.

(** C2 (amended). For [maxDelta >= 0] a step taken at [current == target]
    returns [current]; the sequence of repeated steps toward a fixed target
    moves monotonically toward the target without passing it; and for
    [maxDelta > 0] it is exactly the target from some step on. *)
Theorem approach_iter_converges (current target maxDelta : Q) :
  0 <= maxDelta ->
  (current == target -> approach current target maxDelta = current)
  /\ (forall n : nat,
        (current <= target ->
         approach_iter n current target maxDelta
           <= approach_iter (S n) current target maxDelta <= target)
        /\ (target <= current ->
            target <= approach_iter (S n) current target maxDelta
              <= approach_iter n current target maxDelta))
  /\ (0 < maxDelta ->
      exists N : nat, forall n : nat, (N <= n)%nat ->
        approach_iter n current target maxDelta == target).
Proof.
  intros Hd. split; [|split].
  - intros E. unfold approach.
    destruct (Qlt_le_dec current target); [lra|].
    destruct (Qlt_le_dec target current); [lra|reflexivity].
  - intros n. split; intros Hc.
    + pose proof (approach_iter_up current target maxDelta n Hc Hd) as E.
      assert (Hle : approach_iter n current target maxDelta <= target)
        by (rewrite E; split_minmax; lra).
      simpl. rewrite (approach_up _ _ _ Hle Hd).
      set (x := approach_iter n current target maxDelta) in *. clearbody x.
      split_minmax; lra.
    + pose proof (approach_iter_down current target maxDelta n Hc Hd) as E.
      assert (Hle : target <= approach_iter n current target maxDelta)
        by (rewrite E; split_minmax; lra).
      simpl. rewrite (approach_down _ _ _ Hle Hd).
      set (x := approach_iter n current target maxDelta) in *. clearbody x.
      split_minmax; lra.
  - intros Hpos.
    destruct (archimedean (Qabs (target - current)) maxDelta Hpos) as [N HN].
    exists N. intros n Hn.
    pose proof (Qnat_mult_le N n maxDelta Hd Hn) as Hmul.
    set (k := Qnat n * maxDelta) in *. set (kN := Qnat N * maxDelta) in *.
    destruct (Qlt_le_dec target current) as [Hlt|Hle].
    + rewrite approach_iter_down by lra. fold k. clearbody k kN.
      revert HN. split_abs; intros; split_minmax; lra.
    + rewrite approach_iter_up by lra. fold k. clearbody k kN.
      revert HN. split_abs; intros; split_minmax; lra.
Qed.

Lemma approach_iter_converges_witness :
  exists N : nat, forall n : nat, (N <= n)%nat ->
    approach_iter n 0 1 (1 # 4) == 1.
Proof.
  destruct (approach_iter_converges 0 1 (1 # 4)) as (_ & _ & H).
  - vm_compute. discriminate.
  - apply H. reflexivity.
Defined.

(** *** The store *)

Lemma update_length (h : Heap) (p : addr) f :
  List.length (update h p f) = List.length h.
Proof.
  revert p. induction h as [|a t IH]; intros [|q]; simpl; auto.
Qed.

Lemma deref_update_same (h : Heap) (p : addr) f a :
  deref h p = Some a -> deref (update h p f) p = Some (f a).
Proof.
  unfold deref. revert p. induction h as [|x t IH]; intros [|q]; simpl;
    try discriminate.
  - intros E. injection E as ->. reflexivity.
  - apply IH.
Qed.

Lemma deref_valid (h : Heap) (p : addr) :
  (p < List.length h)%nat -> exists a, deref h p = Some a.
Proof.
  intros H. unfold deref. destruct (nth_error h p) as [a|] eqn:E.
  - exists a. reflexivity.
  - apply nth_error_None in E. lia.
Qed.

Lemma totalPlayCalls_update_play (h : Heap) (p : addr) :
  (p < List.length h)%nat ->
  totalPlayCalls (update h p play) = S (totalPlayCalls h).
Proof.
  revert p. induction h as [|a t IH]; intros [|q] H; simpl in *; try lia.
  rewrite IH by lia. lia.
Qed.

Lemma totalPlayCalls_update_attr (h : Heap) (p : addr) f :
  (forall a, playCalls (f a) = playCalls a) ->
  totalPlayCalls (update h p f) = totalPlayCalls h.
Proof.
  intros Hf. revert p.
  induction h as [|a t IH]; intros [|q]; simpl; rewrite ?Hf, ?IH; reflexivity.
Qed.

(** *** Pools *)

Lemma allocClips_spec (n : nat) (h : Heap) (url : string) (vol : Q) :
  snd (allocClips h url vol n) = seq (List.length h) n
  /\ List.length (fst (allocClips h url vol n)) = (List.length h + n)%nat.
Proof.
  revert h. induction n as [|n IH]; intros h; simpl.
  - split; [reflexivity | lia].
  - destruct (IH (h ++ [set_volume vol (set_preload "auto" (newAudio url))]))
      as [E1 E2].
    destruct (allocClips _ url vol n) as [h2 ps]. simpl in *.
    rewrite length_app in *. simpl in *. split.
    + rewrite E1. f_equal. f_equal. lia.
    + lia.
Qed.

Lemma makeAudioPool_spec (h : Heap) (url : string) (K : nat) (vol : Q) :
  nextIndex (snd (makeAudioPool h url K vol)) = Idx 0
  /\ clips (snd (makeAudioPool h url K vol)) = seq (List.length h) K
  /\ List.length (fst (makeAudioPool h url K vol)) = (List.length h + K)%nat.
Proof.
  unfold makeAudioPool. destruct (allocClips_spec K h url vol) as [E1 E2].
  destruct (allocClips h url vol K) as [h' cs]. simpl in *. auto.
Qed.

Lemma poolReady_grow (h h' : Heap) (pool : AudioPool) :
  (List.length h <= List.length h')%nat -> poolReady h pool -> poolReady h' pool.
Proof.
  intros Hle (i & E & Hi & Hall). exists i. repeat split; auto.
  eapply Forall_impl; [|exact Hall]. simpl. intros a Ha. lia.
Qed.

(** One play on a ready pool: the cursor advances modulo the pool size, the
    clips are the same references, nothing is allocated, and [play()] has
    been invoked once. *)
Lemma playNext_ready (h : Heap) (pool : AudioPool) (i : nat) :
  nextIndex pool = Idx i -> (i < List.length (clips pool))%nat ->
  Forall (fun a : addr => (a < List.length h)%nat) (clips pool) ->
  nextIndex (snd (playNext h pool)) = Idx ((i + 1) mod List.length (clips pool))
  /\ clips (snd (playNext h pool)) = clips pool
  /\ List.length (fst (playNext h pool)) = List.length h
  /\ totalPlayCalls (fst (playNext h pool)) = S (totalPlayCalls h).
Proof.
  intros E Hi Hall. unfold playNext, clipAt. rewrite E.
  destruct (nth_error (clips pool) i) as [a|] eqn:Ea.
  - assert (Ha : (a < List.length h)%nat).
    { rewrite Forall_forall in Hall. apply Hall.
      eapply nth_error_In. exact Ea. }
    simpl. unfold nextCursor.
    destruct (List.length (clips pool)) eqn:El; [lia|].
    repeat split.
    + rewrite !update_length. reflexivity.
    + rewrite totalPlayCalls_update_play by (rewrite update_length; exact Ha).
      rewrite totalPlayCalls_update_attr by reflexivity. reflexivity.
  - apply nth_error_None in Ea. lia.
Qed.

Lemma playNext_keeps_ready (h : Heap) (pool : AudioPool) :
  poolReady h pool -> poolReady (fst (playNext h pool)) (snd (playNext h pool)).
Proof.
  intros (i & E & Hi & Hall).
  destruct (playNext_ready h pool i E Hi Hall) as (E1 & E2 & E3 & _).
  exists ((i + 1) mod List.length (clips pool))%nat.
  rewrite E2, E3. repeat split; auto.
  apply Nat.mod_upper_bound. lia.
Qed.

(** C6. From a freshly made pool of [K > 0] clips, [N] plays in a row leave
    the cursor at [N mod K], which is a position of the pool; the clips are
    still the [K] references made at initialization, no element has been
    added to the store, and [play()] has been invoked [N] times. *)
Theorem pool_cursor_round_robin
        (h : Heap) (url : string) (K : nat) (vol : Q) (N : nat) :
  (0 < K)%nat ->
  let fresh := makeAudioPool h url K vol in
  let after := playMany N (fst fresh) (snd fresh) in
  nextIndex (snd fresh) = Idx 0
  /\ nextIndex (snd after) = Idx (N mod K)
  /\ (N mod K < K)%nat
  /\ clips (snd after) = clips (snd fresh)
  /\ List.length (clips (snd after)) = K
  /\ List.length (fst after) = List.length (fst fresh)
  /\ totalPlayCalls (fst after) = (totalPlayCalls (fst fresh) + N)%nat.
Proof.
  intros HK fresh after. subst after.
  destruct (makeAudioPool_spec h url K vol) as (E0 & Ec & El).
  fold fresh in E0, Ec, El.
  assert (Hall : Forall (fun a : addr => (a < List.length (fst fresh))%nat)
                        (clips (snd fresh))).
  { rewrite Ec, El. apply Forall_forall. intros a Ha.
    apply in_seq in Ha. lia. }
  assert (Hlen : List.length (clips (snd fresh)) = K)
    by (rewrite Ec; apply length_seq).
  split; [exact E0|].
  induction N as [|N IH].
  - simpl. rewrite Nat.Div0.mod_0_l. repeat split; auto; lia.
  - destruct IH as (I1 & I2 & I3 & I4 & I5 & I6).
    cbn [playMany].
    destruct (playMany N (fst fresh) (snd fresh)) as [h1 pool1]. simpl in *.
    assert (Hall1 : Forall (fun a : addr => (a < List.length h1)%nat)
                           (clips pool1)) by (rewrite I3, I5; exact Hall).
    assert (Hi : (N mod K < List.length (clips pool1))%nat) by lia.
    destruct (playNext_ready h1 pool1 (N mod K) I1 Hi Hall1)
      as (P1 & P2 & P3 & P4).
    destruct (playNext h1 pool1) as [h2 pool2]. simpl in *.
    repeat split.
    + rewrite P1, I4. f_equal.
      rewrite Nat.Div0.add_mod_idemp_l.
      f_equal. lia.
    + apply Nat.mod_upper_bound. lia.
    + congruence.
    + congruence.
    + congruence.
    + lia.
Qed.

Lemma pool_cursor_round_robin_witness :
  let fresh := makeAudioPool [] "/sounds/clickDown.mp3" 4 0.35 in
  let after := playMany 6 (fst fresh) (snd fresh) in
  nextIndex (snd fresh) = Idx 0
  /\ nextIndex (snd after) = Idx (6 mod 4)
  /\ (6 mod 4 < 4)%nat
  /\ clips (snd after) = clips (snd fresh)
  /\ List.length (clips (snd after)) = 4%nat
  /\ List.length (fst after) = List.length (fst fresh)
  /\ totalPlayCalls (fst after) = (totalPlayCalls (fst fresh) + 6)%nat.
Proof.
  apply (pool_cursor_round_robin [] "/sounds/clickDown.mp3" 4 0.35 6). lia.
Defined.

(** *** [onPointerDown] *)

Lemma random_index (r : Q) (n : nat) :
  0 <= r < 1 -> (0 < n)%nat ->
  (0 <= Qfloor (r * inject_Z (Z.of_nat n)) < Z.of_nat n)%Z.
Proof.
  intros [Hr0 Hr1] Hn.
  assert (Hpos : 0 < inject_Z (Z.of_nat n)).
  { change 0 with (inject_Z 0). rewrite <- Zlt_Qlt. lia. }
  split.
  - change 0%Z with (Qfloor 0). apply Qfloor_resp_le.
    apply Qmult_le_0_compat; lra.
  - rewrite Zlt_Qlt. eapply Qle_lt_trans; [apply Qfloor_le|].
    assert (H : r * inject_Z (Z.of_nat n) < 1 * inject_Z (Z.of_nat n))
      by (apply Qmult_lt_compat_r; assumption).
    lra.
Qed.

Lemma replaceAt_Forall {A : Type} (P : A -> Prop) (l : list A) (i : nat) (x : A) :
  Forall P l -> P x -> Forall P (replaceAt l i x).
Proof.
  intros Hl Hx. revert i. induction Hl as [|y t Hy Ht IH]; intros [|j]; simpl;
    constructor; auto.
Qed.

Lemma replaceAt_nonempty {A : Type} (l : list A) (i : nat) (x : A) :
  l <> [] -> replaceAt l i x <> [].
Proof. destruct l, i; simpl; congruence. Qed.

Lemma replaceAt_map_same {A B : Type} (f : A -> B) (l : list A) (i : nat)
      (x y : A) :
  nth_error l i = Some y -> f x = f y -> map f (replaceAt l i x) = map f l.
Proof.
  revert i. induction l as [|z t IH]; intros [|j]; simpl; try discriminate.
  - intros E Hf. injection E as ->. rewrite Hf. reflexivity.
  - intros E Hf. rewrite (IH j E Hf). reflexivity.
Qed.

(** What the handler never touches. *)
Lemma onPointerDown_frame (b : option Z) (now r : Q) (s : State) :
  let s' := onPointerDown b now r s in
  scrollAudioRef s' = scrollAudioRef s
  /\ lastWheelAtRef s' = lastWheelAtRef s
  /\ wheelIntensityRef s' = wheelIntensityRef s
  /\ scrollTargetRateRef s' = scrollTargetRateRef s
  /\ scrollCurrentRateRef s' = scrollCurrentRateRef s
  /\ scrollTargetVolRef s' = scrollTargetVolRef s
  /\ scrollCurrentVolRef s' = scrollCurrentVolRef s
  /\ lastRafAt s' = lastRafAt s
  /\ List.length (heap s') = List.length (heap s).
Proof.
  unfold onPointerDown.
  destruct (match b with Some b0 => negb (b0 =? 0)%Z | None => false end);
    [repeat split|].
  destruct (Qlt_le_dec (now - lastPointerDownAtRef s) 25); [repeat split|].
  cbn [clickPoolsRef set_lastPointerDownAt].
  destruct (clickPoolsRef s) as [[|p ps]|]; [repeat split | | repeat split].
  destruct (index (p :: ps) _) as [pool|]; [|repeat split].
  unfold playNext. destruct (clipAt pool); simpl; repeat split.
  rewrite !update_length. reflexivity.
Qed.

(** A dispatched primary click on ready pools: the timestamp is taken, one
    clip is played, and the pools stay ready. *)
Lemma onPointerDown_dispatch (now r : Q) (s : State) :
  poolsReady s -> 0 <= r < 1 -> 25 <= now - lastPointerDownAtRef s ->
  let s' := onPointerDown (Some 0%Z) now r s in
  lastPointerDownAtRef s' = now
  /\ totalPlayCalls (heap s') = S (totalPlayCalls (heap s))
  /\ poolsReady s'.
Proof.
  intros (pools & Ep & Hne & Hall) Hr Hlate. unfold onPointerDown.
  change (negb (0 =? 0)%Z) with false. cbv iota.
  destruct (Qlt_le_dec (now - lastPointerDownAtRef s) 25) as [Hlt|_]; [lra|].
  cbn [clickPoolsRef set_lastPointerDownAt]. rewrite Ep.
  destruct pools as [|p0 ps]; [congruence|].
  set (pools := p0 :: ps) in *.
  assert (Hlen : (0 < List.length pools)%nat) by (simpl; lia).
  pose proof (random_index r (List.length pools) Hr Hlen) as [Hi0 Hi1].
  set (i := Qfloor (r * inject_Z (Z.of_nat (List.length pools)))) in *.
  unfold index. destruct (i <? 0)%Z eqn:Ei; [lia|].
  destruct (nth_error pools (Z.to_nat i)) as [pool|] eqn:Epool.
  2:{ apply nth_error_None in Epool. lia. }
  assert (Hpool : poolReady (heap s) pool).
  { rewrite Forall_forall in Hall. apply Hall. eapply nth_error_In; eauto. }
  cbn [heap set_lastPointerDownAt].
  pose proof (playNext_keeps_ready (heap s) pool Hpool) as Hkeep.
  destruct Hpool as (c & Ec & Hc & Hclips).
  destruct (playNext_ready (heap s) pool c Ec Hc Hclips) as (_ & _ & P3 & P4).
  destruct (playNext (heap s) pool) as [h' pool']. cbn [fst snd] in *.
  unfold poolsReady.
  cbn [lastPointerDownAtRef heap clickPoolsRef set_clickPools set_heap
       set_lastPointerDownAt].
  split; [reflexivity|]. split; [exact P4|].
  exists (replaceAt pools (Z.to_nat i) pool'). split; [reflexivity|]. split.
  - apply replaceAt_nonempty. exact Hne.
  - apply replaceAt_Forall; [|exact Hkeep].
    eapply Forall_impl; [|exact Hall].
    intros pl Hpl. eapply poolReady_grow; [|exact Hpl]. lia.
Qed.

Lemma onPointerDown_keeps_pools (b : option Z) (now r : Q) (s : State) :
  poolsReady s -> poolsReady (onPointerDown b now r s).
Proof.
  intros (pools & Ep & Hne & Hall). unfold onPointerDown.
  destruct (match b with Some b0 => negb (b0 =? 0)%Z | None => false end);
    [exists pools; auto|].
  destruct (Qlt_le_dec (now - lastPointerDownAtRef s) 25); [exists pools; auto|].
  cbn [clickPoolsRef set_lastPointerDownAt]. rewrite Ep.
  destruct pools as [|p0 ps]; [congruence|].
  set (pools := p0 :: ps) in *.
  destruct (index pools _) as [pool|] eqn:Epool; [|exists pools; auto].
  unfold index in Epool.
  destruct (_ <? 0)%Z; [discriminate|].
  assert (Hpool : poolReady (heap s) pool).
  { rewrite Forall_forall in Hall. apply Hall. eapply nth_error_In; eauto. }
  cbn [heap set_lastPointerDownAt].
  pose proof (playNext_keeps_ready (heap s) pool Hpool) as Hkeep.
  destruct Hpool as (c & Ec & Hc & Hclips).
  destruct (playNext_ready (heap s) pool c Ec Hc Hclips) as (_ & _ & P3 & _).
  destruct (playNext (heap s) pool) as [h' pool']. cbn [fst snd] in *.
  unfold poolsReady.
  cbn [lastPointerDownAtRef heap clickPoolsRef set_clickPools set_heap
       set_lastPointerDownAt].
  eexists. split; [reflexivity|]. split.
  - apply replaceAt_nonempty. exact Hne.
  - apply replaceAt_Forall; [|exact Hkeep].
    eapply Forall_impl; [|exact Hall].
    intros pl Hpl. eapply poolReady_grow; [|exact Hpl]. lia.
Qed.

(** C9. A pointer-down whose button index is a number other than 0 returns
    the state it was given: no clip is played, and the pool cursors, the
    last-dispatch timestamp and the scroll-audio levels are what they
    were. *)
Theorem non_primary_pointer_down_ignored
        (button : Z) (now random : Q) (s : State) :
  button <> 0%Z ->
  onPointerDown (Some button) now random s = s
  /\ totalPlayCalls (heap (onPointerDown (Some button) now random s))
     = totalPlayCalls (heap s).
Proof.
  intros Hb. unfold onPointerDown.
  destruct (button =? 0)%Z eqn:E; [apply Z.eqb_eq in E; contradiction|].
  simpl. split; reflexivity.
Qed.

Lemma non_primary_pointer_down_ignored_witness :
  onPointerDown (Some 2%Z) 1000 (1 # 2) (mount 0) = mount 0
  /\ totalPlayCalls (heap (onPointerDown (Some 2%Z) 1000 (1 # 2) (mount 0)))
     = totalPlayCalls (heap (mount 0)).
Proof.
  apply (non_primary_pointer_down_ignored 2 1000 (1 # 2) (mount 0)).
  discriminate.
Defined.

(** Three quick primary clicks: the second and the third are 10 ms apart
    and both fall in the window opened by the first, so the pair plays
    nothing. *)
Lemma suppressed_pair_plays_nothing :
  let s := run (mount 0) [PointerDown (Some 0%Z) 100 0] in
  let s' := run s [PointerDown (Some 0%Z) 110 0; PointerDown (Some 0%Z) 120 0] in
  120 - 110 < 25
  /\ totalPlayCalls (heap s') <> S (totalPlayCalls (heap s)).
Proof.
  split; [reflexivity | vm_compute; discriminate].
Qed.

(** C5 (amended). Two primary-button pointer-down events less than 25 ms
    apart, the first of which arrives at least 25 ms after the previous
    dispatch, produce exactly one playback invocation: the first plays a
    clip and the second returns the state unchanged. *)
Theorem double_pointer_down_plays_once
        (s : State) (t1 t2 r1 r2 : Q) :
  poolsReady s -> 0 <= r1 < 1 ->
  25 <= t1 - lastPointerDownAtRef s ->
  t2 - t1 < 25 ->
  let s1 := onPointerDown (Some 0%Z) t1 r1 s in
  let s2 := onPointerDown (Some 0%Z) t2 r2 s1 in
  totalPlayCalls (heap s1) = S (totalPlayCalls (heap s))
  /\ s2 = s1
  /\ totalPlayCalls (heap s2) = S (totalPlayCalls (heap s)).
Proof.
  intros Hready Hr Hlate Hnear s1 s2.
  destruct (onPointerDown_dispatch t1 r1 s Hready Hr Hlate) as (Et & Ep & _).
  fold s1 in Et, Ep.
  assert (E2 : s2 = s1).
  { subst s2. unfold onPointerDown at 1.
    change (negb (0 =? 0)%Z) with false. cbv iota. rewrite Et.
    destruct (Qlt_le_dec (t2 - t1) 25) as [_|Hge]; [reflexivity | lra]. }
  rewrite E2. auto.
Qed.

Lemma double_pointer_down_plays_once_witness :
  let s1 := onPointerDown (Some 0%Z) 100 (1 # 2) (mount 0) in
  let s2 := onPointerDown (Some 0%Z) 110 (3 # 4) s1 in
  totalPlayCalls (heap s1) = S (totalPlayCalls (heap (mount 0)))
  /\ s2 = s1
  /\ totalPlayCalls (heap s2) = S (totalPlayCalls (heap (mount 0))).
Proof.
  apply (double_pointer_down_plays_once (mount 0) 100 110 (1 # 2) (3 # 4)).
  - eexists. split; [reflexivity|]. split; [discriminate|].
    repeat constructor;
      (eexists; split; [reflexivity|]; split; [cbn; lia|];
       repeat constructor; cbn; lia).
  - split; [vm_compute; discriminate | reflexivity].
  - vm_compute. discriminate.
  - reflexivity.
Defined.

(** *** [onWheel] *)

(** [x / c] for a constant [c] becomes a variable [q] with [x == q * c]. *)
Ltac abstract_div :=
  repeat match goal with
  | |- context [?x / ?c] =>
      let q := fresh "q" in let H := fresh "Hdiv" in
      assert (H : x == (x / c) * c) by (field; lra);
      set (q := x / c) in *; clearbody q
  end.

Lemma onWheel_levels (now deltaY : Q) (s : State) :
  scrollReady s -> 0 <= wheelIntensityRef s <= 220 ->
  let s' := onWheel now deltaY s in
  let n := Qmin 1 (wheelIntensityRef s' / 120) in
  0 <= wheelIntensityRef s' <= 220
  /\ 0 <= n <= 1
  /\ scrollTargetRateRef s' == 1 + 0.55 * n
  /\ scrollTargetVolRef s' == 0.32 * n
  /\ 1 <= scrollTargetRateRef s' <= 1.55
  /\ 0 <= scrollTargetVolRef s' <= 0.32.
Proof.
  intros (a & Ea & Ha) Hi. unfold onWheel. rewrite Ea.
  cbn [wheelIntensityRef scrollTargetRateRef scrollTargetVolRef].
  set (dtWheel := Qmin 0.05 (Qmax 0.001 ((now - lastWheelAtRef s) / 1000))).
  set (clamped := Qmin 220 (Qabs deltaY)).
  assert (Hdt : 0 <= 900 * dtWheel).
  { unfold dtWheel. set (x := (now - lastWheelAtRef s) / 1000). clearbody x.
    split_minmax; lra. }
  assert (Hc : 0 <= clamped <= 220).
  { unfold clamped. pose proof (Qabs_nonneg deltaY).
    set (x := Qabs deltaY) in *. clearbody x. split_minmax; lra. }
  pose proof (approach_range (wheelIntensityRef s) clamped (900 * dtWheel)
                             0 220 Hdt Hi Hc) as Hrange.
  set (i := approach (wheelIntensityRef s) clamped (900 * dtWheel)) in *.
  clearbody i. abstract_div. split_minmax; repeat split; lra.
Qed.

Lemma onWheel_frame (now deltaY : Q) (s : State) :
  let s' := onWheel now deltaY s in
  clickPoolsRef s' = clickPoolsRef s
  /\ scrollAudioRef s' = scrollAudioRef s
  /\ lastPointerDownAtRef s' = lastPointerDownAtRef s
  /\ scrollCurrentRateRef s' = scrollCurrentRateRef s
  /\ scrollCurrentVolRef s' = scrollCurrentVolRef s
  /\ lastRafAt s' = lastRafAt s
  /\ List.length (heap s') = List.length (heap s).
Proof.
  unfold onWheel. destruct (scrollAudioRef s) as [a|] eqn:Ea;
    [|repeat split; auto].
  cbn [clickPoolsRef scrollAudioRef lastPointerDownAtRef scrollCurrentRateRef
       scrollCurrentVolRef lastRafAt heap].
  repeat split; auto.
  destruct (deref (heap s) a) as [x|]; [|reflexivity].
  destruct (paused x); [apply update_length | reflexivity].
Qed.

(** *** [tick] *)

(** The arithmetic of one decaying frame: with both volumes in [[0, B]] and
    an elapsed time of at least [d0], both end in [[0, max 0 (B - 0.9 d0)]]. *)
Lemma fade_step (cv tv B dt d0 : Q) :
  0 <= cv <= B -> 0 <= tv <= B -> 0 <= d0 <= dt ->
  0 <= Qmax 0 (tv - 0.9 * dt) <= Qmax 0 (B - 0.9 * d0)
  /\ 0 <= approach cv (Qmax 0 (tv - 0.9 * dt)) (2.0 * dt)
     <= Qmax 0 (B - 0.9 * d0).
Proof.
  intros Hcv Htv Hd.
  assert (H1 : 0 <= Qmax 0 (tv - 0.9 * dt) <= Qmax 0 (B - 0.9 * d0))
    by (split_minmax; lra).
  split; [exact H1|].
  set (tv' := Qmax 0 (tv - 0.9 * dt)) in *.
  assert (Htv' : tv' <= tv \/ tv' == 0) by (unfold tv'; split_minmax; lra).
  clearbody tv'.
  destruct (Qlt_le_dec cv tv') as [Hlt|Hge].
  - rewrite approach_up by lra. split_minmax; lra.
  - rewrite approach_down by lra. split_minmax; lra.
Qed.

Lemma tick_frame (now : Q) (s : State) :
  let s' := tick now s in
  clickPoolsRef s' = clickPoolsRef s
  /\ scrollAudioRef s' = scrollAudioRef s
  /\ lastPointerDownAtRef s' = lastPointerDownAtRef s
  /\ lastWheelAtRef s' = lastWheelAtRef s
  /\ wheelIntensityRef s' = wheelIntensityRef s
  /\ List.length (heap s') = List.length (heap s).
Proof.
  unfold tick. destruct (scrollAudioRef s) as [a|] eqn:Ea;
    [|repeat split; auto].
  cbn [clickPoolsRef scrollAudioRef lastPointerDownAtRef lastWheelAtRef
       wheelIntensityRef heap].
  repeat split; auto.
  destruct (_ && _); rewrite !update_length; reflexivity.
Qed.

Lemma tick_lastRafAt (now : Q) (s : State) :
  scrollReady s -> lastRafAt (tick now s) = now.
Proof.
  intros (a & Ea & _). unfold tick. rewrite Ea. reflexivity.
Qed.

(** With the clock not running backwards a frame keeps the levels in
    range. *)
Lemma tick_levels (now : Q) (s : State) :
  scrollReady s -> levelsInRange s -> lastRafAt s <= now ->
  levelsInRange (tick now s).
Proof.
  intros (a & Ea & _) (Hi & Htr & Hcr & Htv & Hcv) Hnow.
  unfold tick. rewrite Ea. unfold levelsInRange.
  cbn [wheelIntensityRef scrollTargetRateRef scrollCurrentRateRef
       scrollTargetVolRef scrollCurrentVolRef].
  set (dt := Qmin 0.05 ((now - lastRafAt s) / 1000)).
  assert (Hdt : 0 <= dt).
  { unfold dt. abstract_div. split_minmax; lra. }
  clearbody dt.
  set (decaying := if Qlt_le_dec 90 (now - lastWheelAtRef s) then true else false).
  clearbody decaying.
  set (tv := if decaying then Qmax 0 (scrollTargetVolRef s - 0.9 * dt)
             else scrollTargetVolRef s).
  set (tr := if decaying then approach (scrollTargetRateRef s) 1 (1.2 * dt)
             else scrollTargetRateRef s).
  assert (Htv' : 0 <= tv <= 0.32).
  { unfold tv. destruct decaying; [split_minmax; lra | exact Htv]. }
  assert (Htr' : 1 <= tr <= 1.55).
  { unfold tr. destruct decaying; [|exact Htr].
    apply approach_range; lra. }
  clearbody tv tr.
  split; [exact Hi|]. split; [exact Htr'|].
  split; [apply approach_range; lra|]. split; [exact Htv'|].
  apply approach_range; lra.
Qed.

(** The frame writes the eased volume to the clip; beyond 220 ms of
    silence and below 0.01 it pauses and rewinds the clip. *)
Lemma tick_audio (now : Q) (s : State) :
  scrollReady s ->
  exists a : HTMLAudioElement,
    scrollAudioOf (tick now s) = Some a
    /\ (paused a = false -> volume a = scrollCurrentVolRef (tick now s))
    /\ (220 < now - lastWheelAtRef s ->
        scrollCurrentVolRef (tick now s) < 0.01 ->
        paused a = true /\ currentTime a = 0
        /\ volume a = scrollCurrentVolRef (tick now s)).
Proof.
  intros (p & Ep & Hp). destruct (deref_valid (heap s) p Hp) as [a0 Ea0].
  unfold scrollAudioOf, tick. rewrite Ep.
  cbn [scrollAudioRef heap scrollCurrentVolRef].
  set (cr := approach (scrollCurrentRateRef s) _ _).
  set (cv := approach (scrollCurrentVolRef s) _ _).
  pose proof (deref_update_same _ p (set_playbackRate cr) _ Ea0) as E1.
  pose proof (deref_update_same _ p (set_volume cv) _ E1) as E2.
  destruct (Qlt_le_dec 220 (now - lastWheelAtRef s)) as [Hs|Hs];
    destruct (Qlt_le_dec cv 0.01) as [Hv|Hv]; cbn [andb].
  - pose proof (deref_update_same _ p pause _ E2) as E3.
    pose proof (deref_update_same _ p (set_currentTime 0) _ E3) as E4.
    eexists. split; [exact E4|]. split; [discriminate|].
    intros _ _. repeat split.
  - eexists. split; [exact E2|]. split; [reflexivity|]. intros _ H. lra.
  - eexists. split; [exact E2|]. split; [reflexivity|]. intros H _. lra.
  - eexists. split; [exact E2|]. split; [reflexivity|]. intros H _. lra.
Qed.

(** *** Reachable states *)

Lemma mount_Inv (t : Q) : Inv (mount t).
Proof.
  unfold Inv, poolsReady, scrollReady, levelsInRange. cbn. split; [|split].
  - eexists. split; [reflexivity|]. split; [discriminate|].
    repeat constructor;
      (eexists; split; [reflexivity|]; split; [cbn; lia|];
       repeat constructor; cbn; lia).
  - eexists. split; [reflexivity | lia].
  - repeat split; lra.
Qed.

Lemma handle_scrollReady (s : State) (e : Event) :
  scrollReady s -> scrollReady (handle s e).
Proof.
  intros (a & Ea & Ha). destruct e as [b now r|now dy|now]; cbn [handle].
  - destruct (onPointerDown_frame b now r s) as (E1 & _ & _ & _ & _ & _ & _ & _ & E2).
    exists a. rewrite E1, E2. auto.
  - destruct (onWheel_frame now dy s) as (_ & E1 & _ & _ & _ & _ & E2).
    exists a. rewrite E1, E2. auto.
  - destruct (tick_frame now s) as (_ & E1 & _ & _ & _ & E2).
    exists a. rewrite E1, E2. auto.
Qed.

Lemma handle_poolsReady (s : State) (e : Event) :
  poolsReady s -> poolsReady (handle s e).
Proof.
  intros H. destruct e as [b now r|now dy|now]; cbn [handle].
  - apply onPointerDown_keeps_pools. exact H.
  - destruct H as (pools & Ep & Hne & Hall).
    destruct (onWheel_frame now dy s) as (E1 & _ & _ & _ & _ & _ & E2).
    exists pools. rewrite E1. repeat split; auto.
    eapply Forall_impl; [|exact Hall].
    intros pl Hpl. eapply poolReady_grow; [|exact Hpl]. lia.
  - destruct H as (pools & Ep & Hne & Hall).
    destruct (tick_frame now s) as (E1 & _ & _ & _ & _ & E2).
    exists pools. rewrite E1. repeat split; auto.
    eapply Forall_impl; [|exact Hall].
    intros pl Hpl. eapply poolReady_grow; [|exact Hpl]. lia.
Qed.

Lemma handle_intensity (s : State) (e : Event) :
  scrollReady s -> 0 <= wheelIntensityRef s <= 220 ->
  0 <= wheelIntensityRef (handle s e) <= 220.
Proof.
  intros Hs Hi. destruct e as [b now r|now dy|now]; cbn [handle].
  - destruct (onPointerDown_frame b now r s) as (_ & _ & E & _). rewrite E. exact Hi.
  - apply (onWheel_levels now dy s Hs Hi).
  - destruct (tick_frame now s) as (_ & _ & _ & _ & E & _). rewrite E. exact Hi.
Qed.

Lemma run_intensity (evs : list Event) (s : State) :
  scrollReady s -> 0 <= wheelIntensityRef s <= 220 ->
  scrollReady (run s evs) /\ 0 <= wheelIntensityRef (run s evs) <= 220.
Proof.
  revert s. induction evs as [|e evs IH]; intros s Hs Hi; [auto|].
  cbn [run fold_left]. apply IH.
  - apply handle_scrollReady. exact Hs.
  - apply handle_intensity; assumption.
Qed.

(** Every handler keeps the invariant, as long as the clock does not run
    backwards. *)
Lemma handle_Inv (s : State) (e : Event) (t : Q) :
  Inv s -> lastRafAt s <= t -> t <= eventTime e ->
  Inv (handle s e) /\ lastRafAt (handle s e) <= eventTime e.
Proof.
  intros (Hp & Hs & Hl) Ht He. split; [split; [|split]|].
  - apply handle_poolsReady. exact Hp.
  - apply handle_scrollReady. exact Hs.
  - destruct e as [b now r|now dy|now]; cbn [handle eventTime] in *.
    + destruct (onPointerDown_frame b now r s)
        as (_ & _ & E1 & E2 & E3 & E4 & E5 & _).
      unfold levelsInRange. rewrite E1, E2, E3, E4, E5. exact Hl.
    + destruct Hl as (Hi & Htr & Hcr & Htv & Hcv).
      destruct (onWheel_levels now dy s Hs Hi) as (L1 & _ & _ & _ & L2 & L3).
      destruct (onWheel_frame now dy s) as (_ & _ & _ & E1 & E2 & _).
      unfold levelsInRange. rewrite E1, E2. auto.
    + apply tick_levels; auto. lra.
  - destruct e as [b now r|now dy|now]; cbn [handle eventTime] in *.
    + destruct (onPointerDown_frame b now r s) as (_ & _ & _ & _ & _ & _ & _ & E & _).
      rewrite E. lra.
    + destruct (onWheel_frame now dy s) as (_ & _ & _ & _ & _ & E & _).
      rewrite E. lra.
    + rewrite tick_lastRafAt by exact Hs. lra.
Qed.

Lemma run_Inv (evs : list Event) (s : State) (t : Q) :
  Inv s -> lastRafAt s <= t -> chronological t evs -> Inv (run s evs).
Proof.
  revert s t. induction evs as [|e evs IH]; intros s t Hi Ht Hc; [exact Hi|].
  destruct Hc as [He Hc]. cbn [run fold_left].
  destruct (handle_Inv s e t Hi Ht He) as [Hi' Ht'].
  apply (IH _ (eventTime e)); assumption.
Qed.

(** The handlers never change which clips a pool holds, and never add an
    element to the store. *)
Lemma handle_keeps_clips (s : State) (e : Event) :
  option_map (map clips) (clickPoolsRef (handle s e))
  = option_map (map clips) (clickPoolsRef s)
  /\ List.length (heap (handle s e)) = List.length (heap s).
Proof.
  destruct e as [b now r|now dy|now]; cbn [handle].
  - split; [|apply (onPointerDown_frame b now r s)].
    unfold onPointerDown.
    destruct (match b with Some b0 => negb (b0 =? 0)%Z | None => false end);
      [reflexivity|].
    destruct (Qlt_le_dec (now - lastPointerDownAtRef s) 25); [reflexivity|].
    cbn [clickPoolsRef set_lastPointerDownAt].
    destruct (clickPoolsRef s) as [[|p0 ps]|] eqn:Ep;
      [cbn; rewrite Ep; reflexivity | | cbn; rewrite Ep; reflexivity].
    set (pools := p0 :: ps) in *.
    destruct (index pools _) as [pool|] eqn:Epool;
      [|cbn; rewrite Ep; reflexivity].
    unfold index in Epool. destruct (_ <? 0)%Z; [discriminate|].
    unfold playNext. destruct (clipAt pool);
      cbn [clickPoolsRef set_clickPools option_map]; f_equal;
      eapply replaceAt_map_same; eauto.
  - destruct (onWheel_frame now dy s) as (E1 & _ & _ & _ & _ & _ & E2).
    rewrite E1. auto.
  - destruct (tick_frame now s) as (E1 & _ & _ & _ & _ & E2).
    rewrite E1. auto.
Qed.

(** *** The cursors count the plays, in every run *)

Lemma deref_update_other (h : Heap) (a b : addr) f :
  a <> b -> deref (update h a f) b = deref h b.
Proof.
  unfold deref. revert a b.
  induction h as [|x t IH]; intros [|a] [|b] Hab; simpl; auto; try congruence.
Qed.

Lemma deref_update (h : Heap) (a : addr) f :
  deref (update h a f) a = option_map f (deref h a).
Proof.
  unfold deref. revert a. induction h as [|x t IH]; intros [|a]; simpl; auto.
Qed.

Lemma playsOf_update_out (h : Heap) (a : addr) f (cs : list addr) :
  ~ In a cs -> playsOf (update h a f) cs = playsOf h cs.
Proof.
  induction cs as [|c cs IH]; intros Hn; [reflexivity|].
  cbn [playsOf]. rewrite IH by (intros H; apply Hn; right; exact H).
  rewrite deref_update_other by (intros ->; apply Hn; left; reflexivity).
  reflexivity.
Qed.

Lemma playsOf_update_attr (h : Heap) (a : addr) f (cs : list addr) :
  (forall x, playCalls (f x) = playCalls x) ->
  playsOf (update h a f) cs = playsOf h cs.
Proof.
  intros Hf. induction cs as [|c cs IH]; [reflexivity|].
  cbn [playsOf]. rewrite IH. f_equal.
  destruct (Nat.eq_dec a c) as [->|Hne].
  - rewrite deref_update. destruct (deref h c); simpl; auto.
  - rewrite deref_update_other by exact Hne. reflexivity.
Qed.

Lemma playsOf_update_play (h : Heap) (a : addr) (cs : list addr) :
  NoDup cs -> In a cs -> (a < List.length h)%nat ->
  playsOf (update h a play) cs = S (playsOf h cs).
Proof.
  intros Hnd Hin Ha. induction Hnd as [|c cs Hc Hnd IH]; [contradiction|].
  cbn [playsOf]. destruct Hin as [->|Hin].
  - rewrite playsOf_update_out by exact Hc. rewrite deref_update.
    destruct (deref_valid h a Ha) as [x ->]. reflexivity.
  - rewrite IH by exact Hin.
    rewrite deref_update_other by (intros ->; contradiction). lia.
Qed.

Lemma NoDup_app_disjoint {A : Type} (l1 l2 : list A) (a : A) :
  NoDup (l1 ++ l2) -> In a l1 -> ~ In a l2.
Proof.
  induction l1 as [|x l1 IH]; intros Hnd Hin; [contradiction|].
  simpl in Hnd. apply NoDup_cons_iff in Hnd. destruct Hnd as [Hx Hnd].
  destruct Hin as [->|Hin]; [|apply IH; assumption].
  intros H. apply Hx. apply in_or_app. right. exact H.
Qed.

Lemma replaceAt_flat_map (pools : list AudioPool) (i : nat)
      (pool pool' : AudioPool) :
  nth_error pools i = Some pool -> clips pool' = clips pool ->
  flat_map clips (replaceAt pools i pool') = flat_map clips pools.
Proof.
  revert i. induction pools as [|q t IH]; intros [|j]; simpl; try discriminate.
  - intros E Hc. injection E as ->. rewrite Hc. reflexivity.
  - intros E Hc. rewrite (IH j E Hc). reflexivity.
Qed.

(** Playing a clip of the pool at position [i]: the pool that replaces it
    counts one play more, the others count what they counted. *)
Lemma replaceAt_counts (h h' : Heap) (a : addr) (pools : list AudioPool)
      (i : nat) (pool pool' : AudioPool) :
  nth_error pools i = Some pool ->
  NoDup (flat_map clips pools) -> In a (clips pool) ->
  (forall cs, ~ In a cs -> playsOf h' cs = playsOf h cs) ->
  cursorCountsPlays h' pool' ->
  Forall (cursorCountsPlays h) pools ->
  Forall (cursorCountsPlays h') (replaceAt pools i pool').
Proof.
  intros E Hnd Hin Hout Hnew. revert i E Hnd.
  induction pools as [|q t IH]; intros [|j] E Hnd Hall; simpl in *;
    try discriminate.
  - injection E as ->. inversion Hall as [|? ? _ Ht]; subst.
    constructor; [exact Hnew|].
    pose proof (NoDup_app_disjoint _ _ a Hnd Hin) as Hna.
    rewrite notin_flat_map_Forall in Hna.
    rewrite Forall_forall in *. intros x Hx.
    unfold cursorCountsPlays. rewrite Hout by (apply Hna; exact Hx).
    apply Ht. exact Hx.
  - inversion Hall as [|? ? Hq Ht]; subst. constructor.
    + unfold cursorCountsPlays. rewrite Hout; [exact Hq|].
      intros Hq'. apply (NoDup_app_disjoint _ _ a Hnd Hq').
      apply in_flat_map. exists pool. split; [|exact Hin].
      eapply nth_error_In. exact E.
    + apply IH; auto. eapply NoDup_app_remove_l. exact Hnd.
Qed.

(** The three ways a pointer-down can end: ignored, dispatched without a
    pool to draw from, or dispatched with the clip under a cursor played. *)
Lemma onPointerDown_cases (b : option Z) (now r : Q) (s : State) :
  (forall pools, clickPoolsRef s = Some pools ->
                 Forall (poolReady (heap s)) pools) ->
  onPointerDown b now r s = s
  \/ onPointerDown b now r s = set_lastPointerDownAt now s
  \/ exists (pools : list AudioPool) (i : nat) (pool : AudioPool)
            (c : nat) (a : addr),
       clickPoolsRef s = Some pools
       /\ nth_error pools i = Some pool
       /\ nextIndex pool = Idx c
       /\ nth_error (clips pool) c = Some a
       /\ (a < List.length (heap s))%nat
       /\ onPointerDown b now r s
          = set_clickPools
              (replaceAt pools i
                 (mkPool (Idx ((c + 1) mod List.length (clips pool)))
                         (clips pool)))
              (set_heap (update (update (heap s) a (set_currentTime 0)) a play)
                        (set_lastPointerDownAt now s)).
Proof.
  intros Hready. unfold onPointerDown.
  destruct (match b with Some b0 => negb (b0 =? 0)%Z | None => false end);
    [left; reflexivity|].
  destruct (Qlt_le_dec (now - lastPointerDownAtRef s) 25); [left; reflexivity|].
  right. cbn [clickPoolsRef set_lastPointerDownAt].
  destruct (clickPoolsRef s) as [[|p0 ps]|] eqn:Ep;
    [left; reflexivity | | left; reflexivity].
  pose proof (Hready _ eq_refl) as Hall.
  set (pools := p0 :: ps) in *.
  destruct (index pools _) as [pool|] eqn:Epool; [|left; reflexivity].
  right. unfold index in Epool.
  destruct (_ <? 0)%Z; [discriminate|].
  assert (Hpool : poolReady (heap s) pool).
  { rewrite Forall_forall in Hall. apply Hall. eapply nth_error_In; eauto. }
  destruct Hpool as (c & Ec & Hc & Hclips).
  destruct (nth_error (clips pool) c) as [a|] eqn:Ea.
  2:{ apply nth_error_None in Ea. lia. }
  assert (Ha : (a < List.length (heap s))%nat).
  { rewrite Forall_forall in Hclips. apply Hclips. eapply nth_error_In; eauto. }
  exists pools, (Z.to_nat (Qfloor (r * inject_Z (Z.of_nat (List.length pools))))),
    pool, c, a.
  repeat split; auto.
  cbn [heap set_lastPointerDownAt]. unfold playNext, clipAt. rewrite Ec, Ea.
  unfold nextCursor. destruct (List.length (clips pool)) eqn:El; [lia|].
  reflexivity.
Qed.

Lemma NoDup_flat_map_each (pools : list AudioPool) (pool : AudioPool) :
  NoDup (flat_map clips pools) -> In pool pools -> NoDup (clips pool).
Proof.
  induction pools as [|q t IH]; intros Hnd Hin; [contradiction|].
  simpl in Hnd. destruct Hin as [->|Hin].
  - eapply NoDup_app_remove_r. exact Hnd.
  - apply IH; [eapply NoDup_app_remove_l; exact Hnd | exact Hin].
Qed.

(** A change of the store that leaves the plays of the pools' clips alone
    leaves the cursors counting them. *)
Lemma Counting_same_plays (s s' : State) :
  Counting s ->
  clickPoolsRef s' = clickPoolsRef s -> scrollAudioRef s' = scrollAudioRef s ->
  List.length (heap s') = List.length (heap s) ->
  (forall cs, (forall a, scrollAudioRef s = Some a -> ~ In a cs) ->
              playsOf (heap s') cs = playsOf (heap s) cs) ->
  Counting s'.
Proof.
  intros (pools & Ep & [Hnd Hsep] & Hready & Hcount) E1 E2 E3 Hplays.
  exists pools. rewrite E1. split; [exact Ep|]. split; [|split].
  - split; [exact Hnd|]. rewrite E2. exact Hsep.
  - eapply Forall_impl; [|exact Hready].
    intros pl Hpl. eapply poolReady_grow; [|exact Hpl]. lia.
  - rewrite Forall_forall in *. intros pl Hpl.
    unfold cursorCountsPlays. rewrite Hplays; [apply Hcount; exact Hpl|].
    intros a Ea Hin. apply (Hsep a Ea).
    apply in_flat_map. exists pl. auto.
Qed.

Lemma handle_Counting (s : State) (e : Event) :
  Counting s -> Counting (handle s e).
Proof.
  intros HC. destruct e as [b now r|now dy|now]; cbn [handle].
  - assert (Hready : forall pools, clickPoolsRef s = Some pools ->
                                   Forall (poolReady (heap s)) pools).
    { destruct HC as (pools & Ep & _ & Hr & _). intros pools' Ep'.
      rewrite Ep in Ep'. injection Ep' as <-. exact Hr. }
    destruct (onPointerDown_cases b now r s Hready)
      as [->|[->|(pools & i & pool & c & a & Ep & Ei & Ec & Ea & Ha & ->)]].
    + exact HC.
    + apply (Counting_same_plays s); auto.
    + destruct HC as (pools0 & Ep0 & [Hnd Hsep] & Hr & Hcount).
      rewrite Ep in Ep0. injection Ep0 as <-.
      set (h' := update (update (heap s) a (set_currentTime 0)) a play).
      set (pool' := mkPool (Idx ((c + 1) mod List.length (clips pool)))
                           (clips pool)).
      assert (Hin : In a (clips pool)) by (eapply nth_error_In; eauto).
      assert (Hpin : In pool pools) by (eapply nth_error_In; eauto).
      assert (Hlen : List.length h' = List.length (heap s))
        by (unfold h'; rewrite !update_length; reflexivity).
      exists (replaceAt pools i pool'). split; [reflexivity|].
      unfold clipsSeparate.
      cbn [heap scrollAudioRef set_clickPools set_heap set_lastPointerDownAt].
      rewrite (replaceAt_flat_map pools i pool pool' Ei eq_refl).
      split; [split; assumption|]. split.
      * apply replaceAt_Forall.
        -- eapply Forall_impl; [|exact Hr].
           intros pl Hpl. eapply poolReady_grow; [|exact Hpl]. lia.
        -- rewrite Forall_forall in Hr. destruct (Hr pool Hpin) as (c0 & _ & _ & Hcl).
           exists ((c + 1) mod List.length (clips pool))%nat.
           unfold pool'. cbn [nextIndex clips].
           assert (Hc : (c < List.length (clips pool))%nat)
             by (apply nth_error_Some; congruence).
           split; [reflexivity|]. split; [apply Nat.mod_upper_bound; lia|].
           rewrite Hlen. exact Hcl.
      * apply (replaceAt_counts (heap s) h' a pools i pool pool' Ei Hnd Hin).
        -- intros cs Hcs. unfold h'. rewrite !playsOf_update_out by exact Hcs.
           reflexivity.
        -- unfold cursorCountsPlays, pool'. cbn [nextIndex clips]. f_equal.
           unfold h'. rewrite playsOf_update_play.
           ++ rewrite playsOf_update_attr by reflexivity.
              rewrite Forall_forall in Hcount. pose proof (Hcount pool Hpin) as Hk.
              unfold cursorCountsPlays in Hk. rewrite Ec in Hk.
              injection Hk as ->. rewrite Nat.Div0.add_mod_idemp_l.
              f_equal. lia.
           ++ eapply NoDup_flat_map_each; eauto.
           ++ exact Hin.
           ++ rewrite update_length. exact Ha.
        -- exact Hcount.
  - destruct (onWheel_frame now dy s) as (E1 & E2 & _ & _ & _ & _ & E3).
    apply (Counting_same_plays s); auto.
    intros cs Hcs. unfold onWheel.
    destruct (scrollAudioRef s) as [a|] eqn:Ea; [|reflexivity].
    cbn [heap]. destruct (deref (heap s) a) as [x|]; [|reflexivity].
    destruct (paused x); [|reflexivity].
    apply playsOf_update_out. apply Hcs. reflexivity.
  - destruct (tick_frame now s) as (E1 & E2 & _ & _ & _ & E3).
    apply (Counting_same_plays s); auto.
    intros cs _. unfold tick.
    destruct (scrollAudioRef s) as [a|] eqn:Ea; [|reflexivity].
    cbn [heap]. destruct (_ && _);
      rewrite !playsOf_update_attr by reflexivity; reflexivity.
Qed.

Lemma mount_Counting (t : Q) : Counting (mount t).
Proof.
  destruct (mount_Inv t) as ((pools & Ep & _ & Hr) & _ & _).
  exists pools. split; [exact Ep|]. cbn in Ep. injection Ep as <-.
  split; [|split; [exact Hr|]].
  - split.
    + cbn. repeat constructor; cbn; intuition lia.
    + intros a Ea. cbn in Ea. injection Ea as <-. cbn. intuition lia.
  - repeat constructor.
Qed.

(** In every run of the mounted component each pool's cursor is the number
    of plays dispatched to its clips so far, modulo the pool size, and the
    pools hold the clips made at mount. *)
Lemma run_cursors_count_plays (mountedAt : Q) (evs : list Event) :
  let s := run (mount mountedAt) evs in
  exists pools : list AudioPool,
    clickPoolsRef s = Some pools
    /\ map clips pools = [[0; 1; 2; 3]; [4; 5; 6; 7]]%nat
    /\ Forall (fun pool => nextIndex pool
                           = Idx (playsOf (heap s) (clips pool) mod 4)) pools
    /\ List.length (heap s) = 9%nat.
Proof.
  assert (H : forall l s0,
             Counting s0 ->
             Counting (run s0 l)
             /\ option_map (map clips) (clickPoolsRef (run s0 l))
                = option_map (map clips) (clickPoolsRef s0)
             /\ List.length (heap (run s0 l)) = List.length (heap s0)).
  { induction l as [|e l IH]; intros s0 HC; [auto|].
    cbn [run fold_left]. fold (run (handle s0 e) l).
    destruct (IH (handle s0 e) (handle_Counting s0 e HC)) as (I1 & I2 & I3).
    destruct (handle_keeps_clips s0 e) as [K1 K2].
    split; [exact I1|]. split; congruence. }
  intros s. destruct (H evs (mount mountedAt) (mount_Counting mountedAt))
    as ((pools & Ep & _ & _ & Hcount) & Hclips & Hlen).
  fold s in Ep, Hcount, Hclips, Hlen.
  exists pools. split; [exact Ep|].
  rewrite Ep in Hclips. cbn in Hclips. injection Hclips as Hclips.
  split; [exact Hclips|]. split; [|exact Hlen].
  rewrite Forall_forall in *. intros pool Hin.
  pose proof (Hcount pool Hin) as Hk. unfold cursorCountsPlays in Hk.
  assert (Hl : List.length (clips pool) = 4%nat).
  { apply (in_map clips) in Hin. rewrite Hclips in Hin.
    destruct Hin as [<-|[<-|[]]]; reflexivity. }
  rewrite Hl in Hk. exact Hk.
Qed.

(** C8. After every wheel event of any run of the mounted component the
    intensity is in [[0, 220]], the normalized intensity
    [min(1, intensity / 120)] is in [[0, 1]], the target rate and the
    target volume are [1 + 0.55 n] and [0.32 n], hence in [[1, 1.55]] and
    [[0, 0.32]]. *)
Theorem wheel_targets_in_range
        (mountedAt : Q) (evs : list Event) (now deltaY : Q) :
  let s := onWheel now deltaY (run (mount mountedAt) evs) in
  let n := Qmin 1 (wheelIntensityRef s / 120) in
  0 <= wheelIntensityRef s <= 220
  /\ 0 <= n <= 1
  /\ scrollTargetRateRef s == 1 + 0.55 * n
  /\ scrollTargetVolRef s == 0.32 * n
  /\ 1 <= scrollTargetRateRef s <= 1.55
  /\ 0 <= scrollTargetVolRef s <= 0.32.
Proof.
  destruct (mount_Inv mountedAt) as (_ & Hs & Hi & _).
  destruct (run_intensity evs (mount mountedAt) Hs Hi) as [Hs' Hi'].
  apply onWheel_levels; assumption.
Qed.

(** *** Frames without wheel events *)

Lemma ticks_app (s : State) (l1 l2 : list Q) :
  ticks s (l1 ++ l2) = ticks (ticks s l1) l2.
Proof. unfold ticks. apply fold_left_app. Qed.

Section IdleFrames.

(** Frames come at least [gap] milliseconds apart. *)
Variable gap : Q.
Hypothesis gap_pos : 0 < gap.

(** One frame at least [gap] after the previous one: the volumes stay
    below any bound they were below, and drop by [0.9 d0] (or to 0) once
    more than 90 ms have passed since the last wheel event, where [d0] is
    the least elapsed time the frame can see. *)
Lemma tick_fade (now B : Q) (s : State) :
  scrollReady s -> lastRafAt s + gap <= now ->
  0 <= scrollCurrentVolRef s <= B -> 0 <= scrollTargetVolRef s <= B ->
  let s' := tick now s in
  let B' := Qmax 0 (B - 0.9 * Qmin 0.05 (gap / 1000)) in
  (0 <= scrollCurrentVolRef s' <= B /\ 0 <= scrollTargetVolRef s' <= B)
  /\ (90 < now - lastWheelAtRef s ->
      0 <= scrollCurrentVolRef s' <= B' /\ 0 <= scrollTargetVolRef s' <= B').
Proof.
  intros (a & Ea & _) Hnow Hcv Htv. unfold tick. rewrite Ea.
  cbn [scrollCurrentVolRef scrollTargetVolRef].
  set (dt := Qmin 0.05 ((now - lastRafAt s) / 1000)).
  set (d0 := Qmin 0.05 (gap / 1000)).
  assert (Hd : 0 <= d0 <= dt).
  { pose proof gap_pos. unfold d0, dt. abstract_div. split_minmax; lra. }
  clearbody dt d0.
  destruct (fade_step _ _ B dt d0 Hcv Htv Hd) as [F1 F2].
  destruct (Qlt_le_dec 90 (now - lastWheelAtRef s)) as [Hs|Hs].
  - split; [|intros _; split; assumption].
    revert F1 F2.
    set (tv' := Qmax 0 (scrollTargetVolRef s - 0.9 * dt)).
    set (cv' := approach _ tv' _). clearbody tv' cv'.
    intros F1 F2. split_minmax; lra.
  - split; [|intros H; lra].
    split; [|exact Htv]. apply approach_range; lra.
Qed.

Lemma ticks_prefix (B : Q) (l1 l2 : list Q) (s : State) :
  scrollReady s -> paced gap (lastRafAt s) (l1 ++ l2) ->
  0 <= scrollCurrentVolRef s <= B -> 0 <= scrollTargetVolRef s <= B ->
  let s' := ticks s l1 in
  scrollReady s'
  /\ 0 <= scrollCurrentVolRef s' <= B /\ 0 <= scrollTargetVolRef s' <= B
  /\ lastRafAt s + Qnat (List.length l1) * gap <= lastRafAt s'
  /\ lastWheelAtRef s' = lastWheelAtRef s
  /\ paced gap (lastRafAt s') l2.
Proof.
  revert s. induction l1 as [|t l1 IH]; intros s Hs Hp Hcv Htv.
  - cbn. change (Qnat 0) with 0. repeat split; try assumption; lra.
  - destruct Hp as [Ht Hp]. cbn [ticks fold_left app].
    destruct (tick_fade t B s Hs Ht Hcv Htv) as [[C1 C2] _].
    pose proof (handle_scrollReady s (AnimationFrame t) Hs) as Hs1.
    cbn [handle] in Hs1.
    pose proof (tick_lastRafAt t s Hs) as Et.
    destruct (tick_frame t s) as (_ & _ & _ & Ew & _).
    rewrite <- Et in Hp.
    destruct (IH (tick t s) Hs1 Hp C1 C2) as (I1 & I2 & I3 & I4 & I5 & I6).
    fold (ticks (tick t s) l1). repeat split; try tauto.
    + rewrite Et in I4. cbn [List.length]. pose proof (Qnat_S (List.length l1)) as HS.
      assert (HSd : Qnat (S (List.length l1)) * gap
                    == Qnat (List.length l1) * gap + gap) by (rewrite HS; ring).
      set (k := Qnat (List.length l1) * gap) in *.
      set (k' := Qnat (S (List.length l1)) * gap) in *. clearbody k k'. lra.
    + rewrite I5. exact Ew.
Qed.

Lemma ticks_fade (times : list Q) (s : State) (B : Q) :
  scrollReady s -> paced gap (lastRafAt s) times ->
  lastWheelAtRef s + 220 <= lastRafAt s ->
  0 <= scrollCurrentVolRef s <= B -> 0 <= scrollTargetVolRef s <= B ->
  let s' := ticks s times in
  let B' := Qmax 0 (B - Qnat (List.length times)
                         * (0.9 * Qmin 0.05 (gap / 1000))) in
  0 <= scrollCurrentVolRef s' <= B'
  /\ 0 <= scrollTargetVolRef s' <= B'
  /\ (times <> [] ->
      exists a : HTMLAudioElement,
        scrollAudioOf s' = Some a
        /\ (scrollCurrentVolRef s' < 0.01 ->
            paused a = true /\ currentTime a = 0
            /\ volume a = scrollCurrentVolRef s')).
Proof.
  revert s B. induction times as [|t rest IH]; intros s B Hs Hp Hw Hcv Htv.
  - cbn. change (Qnat 0) with 0. split; [|split].
    + split_minmax; lra.
    + split_minmax; lra.
    + congruence.
  - destruct Hp as [Ht Hp]. cbn [ticks fold_left].
    fold (ticks (tick t s) rest).
    pose proof gap_pos as Hgap.
    assert (Hsince : 220 < t - lastWheelAtRef s) by lra.
    assert (Hsince90 : 90 < t - lastWheelAtRef s) by lra.
    destruct (tick_fade t B s Hs Ht Hcv Htv) as [_ HB].
    destruct (HB Hsince90) as [C1 C2]. clear HB.
    pose proof (handle_scrollReady s (AnimationFrame t) Hs) as Hs1.
    cbn [handle] in Hs1.
    pose proof (tick_lastRafAt t s Hs) as Et.
    destruct (tick_frame t s) as (_ & _ & _ & Ew & _).
    assert (Hw1 : lastWheelAtRef (tick t s) + 220 <= lastRafAt (tick t s))
      by (rewrite Et, Ew; lra).
    rewrite <- Et in Hp.
    destruct (IH (tick t s) _ Hs1 Hp Hw1 C1 C2) as (I1 & I2 & I3).
    set (d := 0.9 * Qmin 0.05 (gap / 1000)) in *.
    assert (Hd : 0 <= d).
    { unfold d. abstract_div. split_minmax; lra. }
    assert (Hbound :
      Qmax 0 (Qmax 0 (B - d) - Qnat (List.length rest) * d)
      <= Qmax 0 (B - Qnat (List.length (t :: rest)) * d)).
    { cbn [List.length]. pose proof (Qnat_S (List.length rest)) as HS.
      assert (HSd : Qnat (S (List.length rest)) * d
                    == Qnat (List.length rest) * d + d) by (rewrite HS; ring).
      assert (Hk : 0 <= Qnat (List.length rest) * d)
        by (apply Qmult_le_0_compat; [apply Qnat_nonneg | exact Hd]).
      set (k := Qnat (List.length rest) * d) in *.
      set (k' := Qnat (S (List.length rest)) * d) in *. clearbody k k' d.
      split_minmax; lra. }
    split; [|split].
    + split; [apply I1|]. eapply Qle_trans; [apply I1 | exact Hbound].
    + split; [apply I2|]. eapply Qle_trans; [apply I2 | exact Hbound].
    + intros _. destruct rest as [|t' rest'].
      * cbn [ticks fold_left].
        destruct (tick_audio t s Hs) as (a & Ea & _ & Hpause).
        exists a. split; [exact Ea|]. intros Hv. apply Hpause; assumption.
      * apply I3. discriminate.
Qed.

End IdleFrames.

(** C7. Without further wheel events, frames at least [gap > 0] apart bring
    the eased volume to zero: from some number of frames on the current
    volume is 0 and the clip is paused, rewound and silent.  On each frame
    the target volume is lowered only when more than 90 ms have passed
    since the last wheel event, and a frame more than 220 ms after the last
    wheel event that leaves the current volume below 0.01 pauses the clip
    and rewinds it to 0. *)
Theorem idle_frames_fade_and_pause (s : State) (gap : Q) :
  scrollReady s -> levelsInRange s -> 0 < gap ->
  (exists N : nat, forall times : list Q,
      paced gap (lastRafAt s) times -> (N <= List.length times)%nat ->
      scrollCurrentVolRef (ticks s times) == 0
      /\ exists a : HTMLAudioElement,
           scrollAudioOf (ticks s times) = Some a
           /\ volume a == 0 /\ paused a = true /\ currentTime a = 0)
  /\ (forall now : Q,
        (now - lastWheelAtRef s <= 90 ->
         scrollTargetVolRef (tick now s) = scrollTargetVolRef s)
        /\ (90 < now - lastWheelAtRef s ->
            scrollTargetVolRef (tick now s)
            = Qmax 0 (scrollTargetVolRef s
                      - 0.9 * Qmin 0.05 ((now - lastRafAt s) / 1000)))
        /\ (220 < now - lastWheelAtRef s ->
            scrollCurrentVolRef (tick now s) < 0.01 ->
            exists a : HTMLAudioElement,
              scrollAudioOf (tick now s) = Some a
              /\ paused a = true /\ currentTime a = 0)).
Proof.
  intros Hs (_ & _ & _ & Htv & Hcv) Hgap. split.
  - set (d := 0.9 * Qmin 0.05 (gap / 1000)).
    assert (Hd : 0 < d).
    { unfold d. abstract_div. split_minmax; lra. }
    destruct (archimedean (lastWheelAtRef s + 220 - lastRafAt s) gap Hgap)
      as [N0 HN0].
    destruct (archimedean 0.32 d Hd) as [N1 HN1].
    exists (N0 + S N1)%nat. intros times Hp Hlen.
    rewrite <- (firstn_skipn N0 times) in Hp |- *.
    set (l1 := firstn N0 times) in *. set (l2 := skipn N0 times) in *.
    assert (Hl1 : List.length l1 = N0) by (unfold l1; rewrite length_firstn; lia).
    assert (Hl2 : (S N1 <= List.length l2)%nat)
      by (unfold l2; rewrite length_skipn; lia).
    rewrite ticks_app.
    destruct (ticks_prefix gap Hgap 0.32 l1 l2 s Hs Hp Hcv Htv)
      as (P1 & P2 & P3 & P4 & P5 & P6).
    rewrite Hl1 in P4.
    assert (Hw : lastWheelAtRef (ticks s l1) + 220 <= lastRafAt (ticks s l1))
      by (rewrite P5; lra).
    destruct (ticks_fade gap Hgap l2 (ticks s l1) 0.32 P1 P6 Hw P2 P3)
      as (F1 & _ & F3).
    fold d in F1.
    assert (Hzero : scrollCurrentVolRef (ticks (ticks s l1) l2) == 0).
    { assert (Hk : Qnat N1 * d <= Qnat (List.length l2) * d)
        by (apply Qnat_mult_le; [lra | lia]).
      set (k := Qnat (List.length l2) * d) in *.
      set (k1 := Qnat N1 * d) in *. clearbody k k1.
      revert F1. split_minmax; intros; lra. }
    split; [exact Hzero|].
    destruct F3 as (a & Ea & Hpause).
    { destruct l2; [simpl in Hl2; lia | discriminate]. }
    exists a. split; [exact Ea|].
    destruct Hpause as (Q1 & Q2 & Q3); [rewrite Hzero; lra|].
    rewrite Q3. auto.
  - intros now. destruct Hs as (p & Ep & Hp).
    split; [|split].
    + intros Hle. unfold tick. rewrite Ep. cbn [scrollTargetVolRef].
      destruct (Qlt_le_dec 90 (now - lastWheelAtRef s)); [lra | reflexivity].
    + intros Hlt. unfold tick. rewrite Ep. cbn [scrollTargetVolRef].
      destruct (Qlt_le_dec 90 (now - lastWheelAtRef s)); [reflexivity | lra].
    + intros Hsince Hvol.
      destruct (tick_audio now s) as (a & Ea & _ & Hpause);
        [exists p; auto|].
      exists a. split; [exact Ea|].
      destruct (Hpause Hsince Hvol) as (Q1 & Q2 & _). auto.
Qed.

Lemma idle_frames_fade_and_pause_witness :
  let s := run (mount 0) [Wheel 1000 (-300); AnimationFrame 1016] in
  (scrollTargetVolRef s == 0.12 /\ scrollCurrentVolRef s == 0.1
   /\ exists a : HTMLAudioElement,
        scrollAudioOf s = Some a /\ volume a == 0.1
        /\ playCalls a = 1%nat)
  /\ (exists N : nat, forall times : list Q,
        paced 16 (lastRafAt s) times -> (N <= List.length times)%nat ->
        scrollCurrentVolRef (ticks s times) == 0
        /\ exists a : HTMLAudioElement,
             scrollAudioOf (ticks s times) = Some a
             /\ volume a == 0 /\ paused a = true /\ currentTime a = 0)
  /\ (forall now : Q,
        (now - lastWheelAtRef s <= 90 ->
         scrollTargetVolRef (tick now s) = scrollTargetVolRef s)
        /\ (90 < now - lastWheelAtRef s ->
            scrollTargetVolRef (tick now s)
            = Qmax 0 (scrollTargetVolRef s
                      - 0.9 * Qmin 0.05 ((now - lastRafAt s) / 1000)))
        /\ (220 < now - lastWheelAtRef s ->
            scrollCurrentVolRef (tick now s) < 0.01 ->
            exists a : HTMLAudioElement,
              scrollAudioOf (tick now s) = Some a
              /\ paused a = true /\ currentTime a = 0)).
Proof.
  intros s. split.
  { split; [reflexivity|]. split; [reflexivity|].
    eexists. split; [vm_compute; reflexivity|]. repeat split. }
  apply (idle_frames_fade_and_pause s 16).
  - exists 8%nat. split; [reflexivity | vm_compute; lia].
  - unfold s. cbn. repeat split; vm_compute; discriminate.
  - reflexivity.
Defined.

End SoundSpec.

(* ===================================================================== *)
(** * Properties of the scene                                             *)
(* ===================================================================== *)

Module SceneSpec.

Import Scene.
Local Open Scope R_scope.

Ltac split_rminmax :=
  unfold Rmin, Rmax in *;
  repeat match goal with
  | |- context [Rle_dec ?a ?b] => destruct (Rle_dec a b)
  | H : context [Rle_dec ?a ?b] |- _ => destruct (Rle_dec a b)
  end.

(** *** Scroll easing and wrap *)

(** Position 4 easing toward 10 in part_000 (loop height 8.1): the blend
    gives 4.72, above 4.05, so both lose 8.1. *)
Example wrap_example :
  let s := mkState (mkVector2 0.5 0.5) (mkVector2 0.5 0.5) 0 10 0 1 0 4 0
                   false 1 0%Z in
  let s' := ImageTube_useFrame Part000 0.016 s in
  scrollCurrent s' = -3.38 /\ tubeScrollTarget s' = 1.9 /\ wraps s' = 1%Z.
Proof.
  cbv zeta. unfold ImageTube_useFrame, wrapScroll, easeScroll, loopHeight,
    rows, ySpacing.
  cbn [scrollCurrent tubeScrollTarget wraps].
  destruct (Rlt_dec _ _) as [H|H]; [|exfalso; apply H; lra].
  cbn [scrollCurrent tubeScrollTarget wraps]. repeat split; lra.
Qed.

Lemma loopHeight_pos (rev : Revision) : 0 < loopHeight rev.
Proof. destruct rev; unfold loopHeight, rows, ySpacing; lra. Qed.

(** What a frame does to the scroll refs and to the ghost count. *)
Lemma useFrame_scroll (rev : Revision) (dt : R) (s : State) :
  let s' := ImageTube_useFrame rev dt s in
  (scrollCurrent s', tubeScrollTarget s', wraps s')
  = wrapScroll (loopHeight rev)
               (easeScroll (scrollCurrent s) (tubeScrollTarget s))
               (tubeScrollTarget s) (wraps s).
Proof.
  unfold ImageTube_useFrame.
  destruct (wrapScroll _ _ _ _) as [[c t] w]. reflexivity.
Qed.

(** Unwrapped, a frame is the plain blend: the position moves 0.12 of the
    way to the target, and the target stays. *)
Lemma useFrame_unwrapped (rev : Revision) (dt : R) (s : State) :
  let s' := ImageTube_useFrame rev dt s in
  unwrappedCurrent rev s'
  = unwrappedCurrent rev s
    + (unwrappedTarget rev s - unwrappedCurrent rev s) * 0.12
  /\ unwrappedTarget rev s' = unwrappedTarget rev s.
Proof.
  pose proof (useFrame_scroll rev dt s) as E. cbv zeta in *.
  unfold unwrappedCurrent, unwrappedTarget.
  set (s' := ImageTube_useFrame rev dt s) in *. clearbody s'.
  unfold wrapScroll, easeScroll in E.
  destruct (Rlt_dec _ _); [|destruct (Rlt_dec _ _)];
    injection E as -> -> ->; rewrite ?plus_IZR, ?minus_IZR; split; ring.
Qed.

Lemma frame_unwrapped (rev : Revision) (elapsed dt : R) (s : State) :
  let s' := frame rev elapsed dt s in
  unwrappedCurrent rev s'
  = unwrappedCurrent rev s
    + (unwrappedTarget rev s - unwrappedCurrent rev s) * 0.12
  /\ unwrappedTarget rev s' = unwrappedTarget rev s.
Proof.
  destruct rev; unfold frame.
  - apply useFrame_unwrapped.
  - apply (useFrame_unwrapped Part001 dt (GridPlane_useFrame true elapsed s)).
Qed.

Lemma trace_nondecreasing (rev : Revision) (inputs : list Input) (s : State) :
  unwrappedCurrent rev s <= unwrappedTarget rev s ->
  forwardOnly inputs ->
  nondecreasing (unwrappedCurrent rev s :: unwrappedTrace rev s inputs).
Proof.
  revert s. induction inputs as [|i rest IH]; intros s Hle Hfw; [exact I|].
  destruct i as [x y l t w h| |dy|b|elapsed dt]; cbn [unwrappedTrace forwardOnly] in *.
  - assert (E : unwrappedCurrent rev (step rev s (PointerMove x y l t w h))
                = unwrappedCurrent rev s
                /\ unwrappedTarget rev (step rev s (PointerMove x y l t w h))
                   = unwrappedTarget rev s).
    { cbn [step]. unfold onPointerMove.
      destruct (Rle_dec w 0); [auto|]. destruct (Rle_dec h 0); auto. }
    destruct E as [E1 E2]. rewrite <- E1. apply IH; [rewrite E1, E2|]; assumption.
  - change (unwrappedCurrent rev s)
      with (unwrappedCurrent rev (step rev s PointerLeave)).
    apply IH; assumption.
  - destruct Hfw as [Hdy Hfw].
    change (unwrappedCurrent rev s)
      with (unwrappedCurrent rev (step rev s (WheelInput dy))).
    apply IH; [|exact Hfw].
    unfold unwrappedCurrent, unwrappedTarget in *. cbn in *. lra.
  - assert (E : unwrappedCurrent rev (step rev s (Hover b))
                = unwrappedCurrent rev s
                /\ unwrappedTarget rev (step rev s (Hover b))
                   = unwrappedTarget rev s)
      by (destruct rev; split; reflexivity).
    destruct E as [E1 E2]. rewrite <- E1. apply IH; [rewrite E1, E2|]; assumption.
  - destruct (frame_unwrapped rev elapsed dt s) as [E1 E2].
    cbn [step]. cbn [nondecreasing]. split; [rewrite E1; lra|].
    apply IH; [rewrite E1, E2; lra | exact Hfw].
Qed.

(** C3. A frame first moves the scroll position 0.12 of the way to the
    target; if the result is above half the loop height, position and
    target both lose one loop height, if it is below minus half, both gain
    one, so their difference is that after the blend; and in a run of the
    mounted scene in which no wheel input scrolls backwards, the position
    with the removed loop heights added back never decreases from one frame
    to the next. *)
Theorem scroll_wrap_unwraps_monotone
        (rev : Revision) (dt : R) (s : State) (inputs : list Input) :
  forwardOnly inputs ->
  let L := loopHeight rev in
  let eased := scrollCurrent s + (tubeScrollTarget s - scrollCurrent s) * 0.12 in
  let s' := ImageTube_useFrame rev dt s in
  (L / 2 < eased ->
   scrollCurrent s' = eased - L /\ tubeScrollTarget s' = tubeScrollTarget s - L)
  /\ (eased < - L / 2 ->
      scrollCurrent s' = eased + L /\ tubeScrollTarget s' = tubeScrollTarget s + L)
  /\ (- L / 2 <= eased <= L / 2 ->
      scrollCurrent s' = eased /\ tubeScrollTarget s' = tubeScrollTarget s)
  /\ tubeScrollTarget s' - scrollCurrent s' = tubeScrollTarget s - eased
  /\ nondecreasing (unwrappedCurrent rev initial
                      :: unwrappedTrace rev initial inputs).
Proof.
  intros Hfw L eased s'.
  pose proof (loopHeight_pos rev) as HL. fold L in HL.
  pose proof (useFrame_scroll rev dt s) as E. cbv zeta in E. fold s' in E.
  unfold wrapScroll, easeScroll in E. fold L eased in E.
  split; [|split; [|split; [|split]]].
  - intros H. destruct (Rlt_dec (L / 2) eased); [|lra].
    injection E as -> -> _. auto.
  - intros H. destruct (Rlt_dec (L / 2) eased); [lra|].
    destruct (Rlt_dec eased (- L / 2)); [|lra].
    injection E as -> -> _. auto.
  - intros H. destruct (Rlt_dec (L / 2) eased); [lra|].
    destruct (Rlt_dec eased (- L / 2)); [lra|].
    injection E as -> -> _. auto.
  - destruct (Rlt_dec (L / 2) eased); [|destruct (Rlt_dec eased (- L / 2))];
      injection E as -> -> _; lra.
  - apply trace_nondecreasing; [|exact Hfw].
    unfold unwrappedCurrent, unwrappedTarget. cbn. lra.
Qed.

Lemma scroll_wrap_unwraps_monotone_witness :
  let inputs := [WheelInput 20000; Frame 0 0.016; Frame 0.016 0.016] in
  wraps (run Part000 initial inputs) = 1%Z
  /\ scrollCurrent (run Part000 initial [WheelInput 20000; Frame 0 0.016])
     < scrollCurrent initial
  /\ nondecreasing (unwrappedCurrent Part000 initial
                      :: unwrappedTrace Part000 initial inputs).
Proof.
  intros inputs.
  assert (H : wraps (run Part000 initial inputs) = 1%Z
              /\ scrollCurrent
                   (run Part000 initial [WheelInput 20000; Frame 0 0.016])
                 < scrollCurrent initial).
  { unfold inputs. cbn [run fold_left step frame].
    set (s1 := onWheel 20000 initial).
    pose proof (useFrame_scroll Part000 0.016 s1) as E1. cbv zeta in E1.
    set (s2 := ImageTube_useFrame Part000 0.016 s1) in *.
    pose proof (useFrame_scroll Part000 0.016 s2) as E2. cbv zeta in E2.
    set (s3 := ImageTube_useFrame Part000 0.016 s2) in *.
    unfold wrapScroll, easeScroll, loopHeight, rows, ySpacing in E1, E2.
    change (scrollCurrent s1) with 0 in E1.
    change (tubeScrollTarget s1) with (0 + 20000 * 0.002) in E1.
    change (wraps s1) with 0%Z in E1.
    destruct (Rlt_dec _ _) as [_|Hn] in E1; [|exfalso; apply Hn; lra].
    injection E1 as C2 T2 W2. rewrite C2, T2, W2 in E2.
    destruct (Rlt_dec _ _) as [Hy|_] in E2; [exfalso; lra|].
    destruct (Rlt_dec _ _) as [Hy|_] in E2; [exfalso; lra|].
    injection E2 as _ _ W3. rewrite W3, C2. split; [reflexivity|].
    cbn [scrollCurrent initial]. lra. }
  destruct H as [H1 H2]. split; [exact H1|]. split; [exact H2|].
  apply (scroll_wrap_unwraps_monotone Part000 0.016 initial inputs).
  cbn. repeat split; lra.
Defined.

(** *** Spin decay and clamp *)

Lemma clampSpin_range (v : R) : -2 <= clampSpin v <= 2.
Proof. unfold clampSpin. split_rminmax; lra. Qed.

Lemma clampSpin_id (v : R) : -2 <= v <= 2 -> clampSpin v = v.
Proof. intros H. unfold clampSpin. split_rminmax; lra. Qed.

Lemma decaySpin_compose (d1 d2 v : R) :
  decaySpin d2 (decaySpin d1 v) = decaySpin (d1 + d2) v.
Proof.
  unfold decaySpin.
  replace ((d1 + d2) * 60) with (d1 * 60 + d2 * 60) by ring.
  rewrite Rpower_plus. ring.
Qed.

(** The decay factor of a frame that took no negative time is in (0, 1]. *)
Lemma decay_factor_range (dt : R) :
  0 <= dt -> 0 < Rpower damping (dt * 60) <= 1.
Proof.
  intros Hdt. unfold Rpower. split; [apply exp_pos|].
  rewrite <- exp_0.
  assert (Hln : ln damping < 0).
  { rewrite <- ln_1. apply ln_increasing; unfold damping; lra. }
  destruct (Req_dec dt 0) as [->|Hne].
  - right. f_equal. ring.
  - left. apply exp_increasing. nra.
Qed.

(** Inside the band the clamp is idle, and two frames decay like one frame
    of the added time. *)
Lemma spin_frames_compose_in_band (d1 d2 v : R) :
  -2 <= v <= 2 -> 0 <= d1 -> 0 <= d2 ->
  clampSpin (decaySpin d2 (clampSpin (decaySpin d1 v)))
  = clampSpin (decaySpin (d1 + d2) v).
Proof.
  intros Hv H1 H2.
  assert (Hin : -2 <= decaySpin d1 v <= 2).
  { unfold decaySpin. pose proof (decay_factor_range d1 H1) as [F1 F2].
    set (f := Rpower damping (d1 * 60)) in *. clearbody f. nra. }
  rewrite (clampSpin_id _ Hin). rewrite decaySpin_compose. reflexivity.
Qed.

Lemma useFrame_spin (rev : Revision) (dt : R) (s : State) :
  tubeSpinVelocity (ImageTube_useFrame rev dt s)
  = clampSpin (decaySpin dt (tubeSpinVelocity s)).
Proof.
  unfold ImageTube_useFrame. destruct (wrapScroll _ _ _ _) as [[c t] w].
  reflexivity.
Qed.

(** C4. A frame multiplies the spin velocity by [0.92 ^ (60 dt)] and then
    clamps it to [[-2, 2]]: the stored velocity is the product itself when
    that is in the band, which it is whenever the velocity was in the band
    and [dt >= 0], and it is 2 or -2 when the product is beyond.  The
    factor of a frame with [dt >= 0] is in (0, 1].  The decay of two
    frames of [d1] and [d2] is the decay of one frame of [d1 + d2]: the
    factors multiply, and from a velocity in the band two frames in a row
    store the velocity times [0.92 ^ (60 (d1 + d2))], which is what one
    frame of [d1 + d2] stores.  After every frame the stored velocity is
    in [[-2, 2]]. *)
Theorem spin_decay_frame_rate_independent
        (rev : Revision) (d1 d2 dt v : R) (s : State) :
  tubeSpinVelocity (ImageTube_useFrame rev dt s)
  = Rmax (-2) (Rmin 2 (tubeSpinVelocity s * Rpower 0.92 (60 * dt)))
  /\ (-2 <= tubeSpinVelocity s * Rpower 0.92 (60 * dt) <= 2 ->
      tubeSpinVelocity (ImageTube_useFrame rev dt s)
      = tubeSpinVelocity s * Rpower 0.92 (60 * dt))
  /\ (2 <= tubeSpinVelocity s * Rpower 0.92 (60 * dt) ->
      tubeSpinVelocity (ImageTube_useFrame rev dt s) = 2)
  /\ (tubeSpinVelocity s * Rpower 0.92 (60 * dt) <= -2 ->
      tubeSpinVelocity (ImageTube_useFrame rev dt s) = -2)
  /\ (0 <= dt -> 0 < Rpower 0.92 (60 * dt) <= 1)
  /\ (-2 <= tubeSpinVelocity s <= 2 -> 0 <= dt ->
      tubeSpinVelocity (ImageTube_useFrame rev dt s)
      = tubeSpinVelocity s * Rpower 0.92 (60 * dt))
  /\ Rpower 0.92 (60 * d1) * Rpower 0.92 (60 * d2)
     = Rpower 0.92 (60 * (d1 + d2))
  /\ decaySpin d2 (decaySpin d1 v) = decaySpin (d1 + d2) v
  /\ -2 <= tubeSpinVelocity (ImageTube_useFrame rev dt s) <= 2
  /\ (-2 <= tubeSpinVelocity s <= 2 -> 0 <= d1 -> 0 <= d2 ->
      tubeSpinVelocity (ImageTube_useFrame rev d2 (ImageTube_useFrame rev d1 s))
      = tubeSpinVelocity (ImageTube_useFrame rev (d1 + d2) s)
      /\ tubeSpinVelocity
           (ImageTube_useFrame rev d2 (ImageTube_useFrame rev d1 s))
         = tubeSpinVelocity s * Rpower 0.92 (60 * (d1 + d2))).
Proof.
  assert (E : forall d st,
             tubeSpinVelocity (ImageTube_useFrame rev d st)
             = Rmax (-2) (Rmin 2 (tubeSpinVelocity st * Rpower 0.92 (60 * d)))).
  { intros d st. rewrite useFrame_spin. unfold clampSpin, decaySpin, damping.
    replace (60 * d) with (d * 60) by ring.
    replace (-2.0) with (-2) by lra. replace 2.0 with 2 by lra. reflexivity. }
  assert (F : forall d, 0 <= d -> 0 < Rpower 0.92 (60 * d) <= 1).
  { intros d Hd. replace (60 * d) with (d * 60) by ring.
    apply (decay_factor_range d Hd). }
  assert (G : forall d st, -2 <= tubeSpinVelocity st <= 2 -> 0 <= d ->
             tubeSpinVelocity (ImageTube_useFrame rev d st)
             = tubeSpinVelocity st * Rpower 0.92 (60 * d)).
  { intros d st Hv Hd. rewrite E. destruct (F d Hd) as [F1 F2].
    set (f := Rpower 0.92 (60 * d)) in *. clearbody f.
    assert (Hin : -2 <= tubeSpinVelocity st * f <= 2) by nra.
    set (x := tubeSpinVelocity st * f) in *. clearbody x.
    split_rminmax; lra. }
  split; [apply E|]. split; [|split; [|split]].
  - intros H. rewrite E.
    set (x := tubeSpinVelocity s * Rpower 0.92 (60 * dt)) in *. clearbody x.
    split_rminmax; lra.
  - intros H. rewrite E.
    set (x := tubeSpinVelocity s * Rpower 0.92 (60 * dt)) in *. clearbody x.
    split_rminmax; lra.
  - intros H. rewrite E.
    set (x := tubeSpinVelocity s * Rpower 0.92 (60 * dt)) in *. clearbody x.
    split_rminmax; lra.
  - split; [apply F|]. split; [apply G|]. split; [|split; [|split]].
    + rewrite <- Rpower_plus.
      replace (60 * (d1 + d2)) with (60 * d1 + 60 * d2) by ring. reflexivity.
    + apply decaySpin_compose.
    + rewrite useFrame_spin. apply clampSpin_range.
    + intros Hv H1 H2.
      assert (H12 : 0 <= d1 + d2) by lra.
      assert (Hv1 : -2 <= tubeSpinVelocity (ImageTube_useFrame rev d1 s) <= 2)
        by (rewrite useFrame_spin; apply clampSpin_range).
      rewrite (G d2 _ Hv1 H2), (G d1 s Hv H1), (G (d1 + d2) s Hv H12).
      replace (60 * (d1 + d2)) with (60 * d1 + 60 * d2) by ring.
      rewrite Rpower_plus. split; ring.
Qed.

Lemma spin_decay_frame_rate_independent_witness :
  let s := onWheel 250 initial in
  tubeSpinVelocity (ImageTube_useFrame Part001 (1 / 60) s)
  = tubeSpinVelocity s * Rpower 0.92 (60 * (1 / 60))
  /\ 0 < Rpower 0.92 (60 * (1 / 60)) <= 1
  /\ tubeSpinVelocity
       (ImageTube_useFrame Part001 (1 / 120)
          (ImageTube_useFrame Part001 (1 / 60) s))
     = tubeSpinVelocity (ImageTube_useFrame Part001 (1 / 60 + 1 / 120) s)
  /\ tubeSpinVelocity
       (ImageTube_useFrame Part001 (1 / 120)
          (ImageTube_useFrame Part001 (1 / 60) s))
     = tubeSpinVelocity s * Rpower 0.92 (60 * (1 / 60 + 1 / 120)).
Proof.
  intros s.
  destruct (spin_decay_frame_rate_independent
              Part001 (1 / 60) (1 / 120) (1 / 60) 0 s)
    as (_ & _ & _ & _ & HF & HG & _ & _ & _ & H2).
  assert (Hv : -2 <= tubeSpinVelocity s <= 2) by (unfold s; cbn; lra).
  split; [apply HG; [exact Hv | lra]|].
  split; [apply HF; lra|].
  apply H2; [exact Hv | lra | lra].
Defined.

(** *** The shader focus point *)

Lemma clamp01_range (x : R) : 0 <= clamp01 x <= 1.
Proof. unfold clamp01. split_rminmax; lra. Qed.

Lemma clamp01_id (x : R) : 0 <= x <= 1 -> clamp01 x = x.
Proof. intros H. unfold clamp01. split_rminmax; lra. Qed.

(** On a rectangle with positive sides the target is the clamped normalized
    position, y flipped, compressed about (0.5, 0.5) by 0.4. *)
Lemma onPointerMove_target (x y l t w h : R) (s : State) :
  0 < w -> 0 < h ->
  targetCenterUv (onPointerMove x y l t w h s)
  = mkVector2 (0.5 + (clamp01 ((x - l) / w) - 0.5) * 0.4)
              (0.5 + (1 - clamp01 ((y - t) / h) - 0.5) * 0.4).
Proof.
  intros Hw Hh. unfold onPointerMove.
  destruct (Rle_dec w 0); [lra|]. destruct (Rle_dec h 0); [lra|].
  cbn [targetCenterUv set_targetCenterUv].
  pose proof (clamp01_range ((x - l) / w)) as Hx.
  pose proof (clamp01_range ((y - t) / h)) as Hy.
  set (cx := clamp01 ((x - l) / w)) in *. set (cy := clamp01 ((y - t) / h)) in *.
  clearbody cx cy. f_equal; apply clamp01_id; lra.
Qed.

Lemma onPointerMove_inSquare (x y l t w h : R) (s : State) :
  inSquare (targetCenterUv s) ->
  inSquare (targetCenterUv (onPointerMove x y l t w h s)).
Proof.
  intros Hs. destruct (Rle_dec w 0) as [Hw|Hw];
    [unfold onPointerMove; destruct (Rle_dec w 0); [exact Hs | lra]|].
  destruct (Rle_dec h 0) as [Hh|Hh];
    [unfold onPointerMove; destruct (Rle_dec w 0); [exact Hs|];
     destruct (Rle_dec h 0); [exact Hs | lra]|].
  rewrite onPointerMove_target by lra.
  pose proof (clamp01_range ((x - l) / w)) as Hx.
  pose proof (clamp01_range ((y - t) / h)) as Hy.
  unfold inSquare. cbn [vx vy]. lra.
Qed.

Lemma lerp_inSquare (v w : Vector2) :
  inSquare v -> inSquare w -> inSquare (lerp v w 0.08).
Proof. unfold inSquare, lerp. cbn [vx vy]. intros. lra. Qed.

Lemma step_inSquare (rev : Revision) (s : State) (i : Input) :
  inSquare (targetCenterUv s) -> inSquare (uCenter s) ->
  inSquare (targetCenterUv (step rev s i)) /\ inSquare (uCenter (step rev s i)).
Proof.
  intros Ht Hu. destruct i as [x y l t w h| |dy|b|elapsed dt]; cbn [step].
  - split; [apply onPointerMove_inSquare; exact Ht|].
    unfold onPointerMove. destruct (Rle_dec w 0); [exact Hu|].
    destruct (Rle_dec h 0); exact Hu.
  - split; [|exact Hu]. unfold inSquare. cbn. lra.
  - split; assumption.
  - destruct rev; split; assumption.
  - assert (E : forall r d st,
               targetCenterUv (ImageTube_useFrame r d st) = targetCenterUv st
               /\ uCenter (ImageTube_useFrame r d st) = uCenter st).
    { intros r d st. unfold ImageTube_useFrame.
      destruct (wrapScroll _ _ _ _) as [[c t] w]. split; reflexivity. }
    unfold frame. destruct rev.
    + destruct (E Part000 dt s) as [-> ->]. split; assumption.
    + destruct (E Part001 dt (GridPlane_useFrame true elapsed s)) as [-> ->].
      cbn [GridPlane_useFrame targetCenterUv uCenter].
      split; [exact Ht | apply lerp_inSquare; assumption].
Qed.

(** C10. In every run of the mounted scene the focus target written by
    pointer-move and pointer-leave is in [[0.3, 0.7] x [0.3, 0.7]], and so
    is the [uCenter] uniform, which starts at (0.5, 0.5) and moves 0.08 of
    the way to the target on each frame. *)
Theorem focus_point_stays_in_square (rev : Revision) (inputs : list Input) :
  inSquare (targetCenterUv initial) /\ inSquare (uCenter initial)
  /\ targetCenterUv (onPointerLeave (run rev initial inputs))
     = mkVector2 0.5 0.5
  /\ uCenter (GridPlane_useFrame true 0 (run rev initial inputs))
     = lerp (uCenter (run rev initial inputs))
            (targetCenterUv (run rev initial inputs)) 0.08
  /\ inSquare (targetCenterUv (run rev initial inputs))
  /\ inSquare (uCenter (run rev initial inputs)).
Proof.
  assert (H0 : inSquare (targetCenterUv initial) /\ inSquare (uCenter initial))
    by (unfold inSquare; cbn; lra).
  assert (H : forall l s,
             inSquare (targetCenterUv s) -> inSquare (uCenter s) ->
             inSquare (targetCenterUv (run rev s l))
             /\ inSquare (uCenter (run rev s l))).
  { induction l as [|i l IH]; intros s Ht Hu; [auto|].
    cbn [run fold_left]. destruct (step_inSquare rev s i Ht Hu).
    apply IH; assumption. }
  destruct H0 as [A B]. destruct (H inputs initial A B) as [C D].
  repeat split; try apply A; try apply B; try apply C; try apply D.
Qed.

End SceneSpec.

(* ===================================================================== *)
(** * Further properties of the sound component                           *)
(* ===================================================================== *)

Module SoundExtra.

Import Sound SoundSpec.
Local Open Scope Q_scope.

(** *** [onWheel] *)

Lemma Qabs_opp_eq (x : Q) : Qabs (- x) = Qabs x.
Proof. destruct x as [n d]. unfold Qabs, Qopp. cbn. rewrite Z.abs_opp. reflexivity. Qed.

(** X1. The wheel handler reads only the magnitude of [deltaY]: scrolling
    up and scrolling down by the same amount leave the same state. *)
Theorem wheel_ignores_direction (now deltaY : Q) (s : State) :
  onWheel now (- deltaY) s = onWheel now deltaY s.
Proof.
  unfold onWheel. rewrite Qabs_opp_eq. reflexivity.
Qed.

(** X2. One wheel event moves the intensity toward [min(220, |deltaY|)]
    without passing it, by at most 45 (900 per second over the 50 ms the
    elapsed time is capped at), and by at least 0.9 unless it arrives
    first. *)
Theorem wheel_intensity_rate_limited (now deltaY : Q) (s : State) :
  scrollReady s ->
  let clamped := Qmin 220 (Qabs deltaY) in
  let i := wheelIntensityRef s in
  let i' := wheelIntensityRef (onWheel now deltaY s) in
  between i clamped i'
  /\ Qabs (i' - i) <= 45
  /\ (i' == clamped \/ 0.9 <= Qabs (i' - i)).
Proof.
  intros (a & Ea & _) clamped i i'. subst i'. unfold onWheel. rewrite Ea.
  cbn [wheelIntensityRef]. fold clamped. fold i.
  set (dtWheel := Qmin 0.05 (Qmax 0.001 ((now - lastWheelAtRef s) / 1000))).
  assert (Hdt : 0.001 <= dtWheel <= 0.05).
  { unfold dtWheel. set (x := (now - lastWheelAtRef s) / 1000). clearbody x.
    split_minmax; lra. }
  clearbody dtWheel clamped i. unfold between.
  approach_cases; split_minmax; split_abs; repeat split;
    try lra; try (left; lra); try (right; lra).
Qed.

Lemma wheel_intensity_rate_limited_witness :
  let s := mount 0 in
  let clamped := Qmin 220 (Qabs (-300)) in
  let i := wheelIntensityRef s in
  let i' := wheelIntensityRef (onWheel 1000 (-300) s) in
  between i clamped i'
  /\ Qabs (i' - i) <= 45
  /\ (i' == clamped \/ 0.9 <= Qabs (i' - i)).
Proof.
  apply (wheel_intensity_rate_limited 1000 (-300) (mount 0)).
  exists 8%nat. split; [reflexivity | cbn; lia].
Defined.

(** X3. A wheel event invokes [play()] on the scroll clip exactly when the
    clip is paused, never on a running clip; it changes no other attribute
    of the clip and no other element of the store. *)
Theorem wheel_plays_paused_clip_once (now deltaY : Q) (s : State) (p : addr)
        (a0 : HTMLAudioElement) :
  scrollAudioRef s = Some p -> deref (heap s) p = Some a0 ->
  let s' := onWheel now deltaY s in
  (exists a' : HTMLAudioElement,
      deref (heap s') p = Some a'
      /\ playCalls a' = (playCalls a0 + if paused a0 then 1 else 0)%nat
      /\ src a' = src a0 /\ preload a' = preload a0 /\ loop a' = loop a0
      /\ volume a' = volume a0 /\ playbackRate a' = playbackRate a0
      /\ currentTime a' = currentTime a0)
  /\ totalPlayCalls (heap s')
     = (totalPlayCalls (heap s) + if paused a0 then 1 else 0)%nat
  /\ forall b : addr, b <> p -> deref (heap s') b = deref (heap s) b.
Proof.
  intros Ep Ea s'. subst s'. unfold onWheel. rewrite Ep.
  cbn [heap]. rewrite Ea.
  assert (Hp : (p < List.length (heap s))%nat).
  { unfold deref in Ea. apply nth_error_Some. congruence. }
  destruct (paused a0) eqn:Epa.
  - split; [|split].
    + exists (play a0). rewrite (deref_update_same _ _ _ _ Ea). cbn.
      repeat split. lia.
    + rewrite totalPlayCalls_update_play by exact Hp. lia.
    + intros b Hb. apply deref_update_other. congruence.
  - split; [|split].
    + exists a0. split; [exact Ea|]. repeat split. lia.
    + lia.
    + reflexivity.
Qed.

Lemma wheel_plays_paused_clip_once_witness :
  let s := mount 0 in
  let a0 := set_playbackRate 1 (set_volume 0 (set_loop true
              (set_preload "auto" (newAudio scrollUrl)))) in
  let s' := onWheel 1000 120 s in
  (exists a' : HTMLAudioElement,
      deref (heap s') 8%nat = Some a'
      /\ playCalls a' = (playCalls a0 + if paused a0 then 1 else 0)%nat
      /\ src a' = src a0 /\ preload a' = preload a0 /\ loop a' = loop a0
      /\ volume a' = volume a0 /\ playbackRate a' = playbackRate a0
      /\ currentTime a' = currentTime a0)
  /\ totalPlayCalls (heap s')
     = (totalPlayCalls (heap s) + if paused a0 then 1 else 0)%nat
  /\ forall b : addr, b <> 8%nat -> deref (heap s') b = deref (heap s) b.
Proof.
  apply (wheel_plays_paused_clip_once 1000 120 (mount 0) 8%nat); reflexivity.
Defined.

(** *** [tick] *)

(** X4. With the levels in range and the clock not running backwards, one
    frame moves the current volume by at most 0.1 and the current rate by
    at most 0.15, and lowers the target volume by at most 0.045 and the
    target rate by at most 0.06: the levels never jump. *)
Theorem tick_rate_limited (now : Q) (s : State) :
  levelsInRange s -> lastRafAt s <= now ->
  let s' := tick now s in
  Qabs (scrollCurrentVolRef s' - scrollCurrentVolRef s) <= 0.1
  /\ Qabs (scrollCurrentRateRef s' - scrollCurrentRateRef s) <= 0.15
  /\ Qabs (scrollTargetVolRef s' - scrollTargetVolRef s) <= 0.045
  /\ Qabs (scrollTargetRateRef s' - scrollTargetRateRef s) <= 0.06.
Proof.
  intros (_ & _ & _ & Htv & _) Hnow s'. subst s'. unfold tick.
  destruct (scrollAudioRef s) as [p|].
  2:{ repeat split; split_abs; lra. }
  cbn [scrollCurrentVolRef scrollCurrentRateRef scrollTargetVolRef
       scrollTargetRateRef].
  set (dt := Qmin 0.05 ((now - lastRafAt s) / 1000)).
  assert (Hdt : 0 <= dt <= 0.05).
  { unfold dt. abstract_div. split_minmax; lra. }
  clearbody dt.
  set (cv := scrollCurrentVolRef s). set (cr := scrollCurrentRateRef s).
  set (tv := scrollTargetVolRef s) in *. set (tr := scrollTargetRateRef s).
  clearbody cv cr tv tr.
  destruct (Qlt_le_dec 90 (now - lastWheelAtRef s)) as [Hs|Hs].
  - repeat split.
    + set (tv' := Qmax 0 (tv - 0.9 * dt)). clearbody tv'.
      approach_cases; split_minmax; split_abs; lra.
    + set (tr' := approach tr 1 (1.2 * dt)). clearbody tr'.
      approach_cases; split_minmax; split_abs; lra.
    + split_minmax; split_abs; lra.
    + approach_cases; split_minmax; split_abs; lra.
  - repeat split.
    + approach_cases; split_minmax; split_abs; lra.
    + approach_cases; split_minmax; split_abs; lra.
    + split_abs; lra.
    + split_abs; lra.
Qed.

Lemma tick_rate_limited_witness :
  let s := onWheel 1000 (-300) (mount 0) in
  let s' := tick 1016 s in
  Qabs (scrollCurrentVolRef s' - scrollCurrentVolRef s) <= 0.1
  /\ Qabs (scrollCurrentRateRef s' - scrollCurrentRateRef s) <= 0.15
  /\ Qabs (scrollTargetVolRef s' - scrollTargetVolRef s) <= 0.045
  /\ Qabs (scrollTargetRateRef s' - scrollTargetRateRef s) <= 0.06.
Proof.
  apply (tick_rate_limited 1016 (onWheel 1000 (-300) (mount 0))).
  - cbn. repeat split; vm_compute; discriminate.
  - vm_compute. discriminate.
Defined.

(** *** The clip and the refs, in every run *)

Lemma handle_tracks (s : State) (e : Event) :
  Counting s -> scrollReady s -> clipTracksLevels s ->
  clipTracksLevels (handle s e).
Proof.
  intros HC (p & Ep & Hp) (a & Ea & Ev & Er).
  unfold scrollAudioOf in Ea. rewrite Ep in Ea.
  destruct e as [b now r|now dy|now]; cbn [handle].
  - assert (Hready : forall pools, clickPoolsRef s = Some pools ->
                                   Forall (poolReady (heap s)) pools).
    { destruct HC as (pools & Epl & _ & Hr & _). intros pools' Ep'.
      rewrite Epl in Ep'. injection Ep' as <-. exact Hr. }
    destruct (onPointerDown_cases b now r s Hready)
      as [->|[->|(pools & i & pool & c & x & Epl & Ei & Ec & Ex & Hx & ->)]].
    + exists a. unfold scrollAudioOf. rewrite Ep. auto.
    + exists a. unfold scrollAudioOf. cbn. rewrite Ep. auto.
    + exists a. unfold scrollAudioOf.
      cbn [scrollAudioRef heap scrollCurrentVolRef scrollCurrentRateRef
           set_clickPools set_heap set_lastPointerDownAt].
      rewrite Ep. split; [|auto].
      destruct HC as (pools0 & Ep0 & [_ Hsep] & _).
      rewrite Epl in Ep0. injection Ep0 as <-.
      assert (Hne : x <> p).
      { intros ->. apply (Hsep p Ep). apply in_flat_map. exists pool.
        split; eapply nth_error_In; eauto. }
      rewrite !deref_update_other by exact Hne. exact Ea.
  - destruct (onWheel_frame now dy s) as (_ & E1 & _ & E2 & E3 & _).
    unfold clipTracksLevels, scrollAudioOf. rewrite E1, E2, E3, Ep.
    unfold onWheel. rewrite Ep. cbn [heap]. rewrite Ea.
    destruct (paused a).
    + rewrite (deref_update_same _ _ _ _ Ea). eexists. split; [reflexivity|].
      auto.
    + exists a. auto.
  - unfold clipTracksLevels, scrollAudioOf, tick. rewrite Ep.
    cbn [scrollAudioRef heap scrollCurrentVolRef scrollCurrentRateRef].
    set (cr := approach (scrollCurrentRateRef s) _ _).
    set (cv := approach (scrollCurrentVolRef s) _ _).
    pose proof (deref_update_same _ p (set_playbackRate cr) _ Ea) as E1.
    pose proof (deref_update_same _ p (set_volume cv) _ E1) as E2.
    destruct (_ && _).
    + pose proof (deref_update_same _ p pause _ E2) as E3.
      pose proof (deref_update_same _ p (set_currentTime 0) _ E3) as E4.
      eexists. split; [exact E4|]. split; reflexivity.
    + eexists. split; [exact E2|]. split; reflexivity.
Qed.

Lemma mount_tracks (t : Q) : clipTracksLevels (mount t).
Proof. eexists. split; [reflexivity|]. split; reflexivity. Qed.

(** X5. In every run of the mounted component in which the clock does not
    run backwards, the scroll clip carries exactly the eased volume and
    rate of the refs, the volume in [[0, 0.32]] and the rate in
    [[1, 1.55]]: the volume the component writes is always one the element
    accepts. *)
Theorem scroll_clip_tracks_levels (mountedAt : Q) (evs : list Event) :
  chronological mountedAt evs ->
  let s := run (mount mountedAt) evs in
  exists a : HTMLAudioElement,
    scrollAudioOf s = Some a
    /\ volume a = scrollCurrentVolRef s
    /\ playbackRate a = scrollCurrentRateRef s
    /\ 0 <= volume a <= 0.32
    /\ 1 <= playbackRate a <= 1.55.
Proof.
  intros Hc s.
  assert (H : forall l s0 t,
             Counting s0 -> Inv s0 -> clipTracksLevels s0 ->
             lastRafAt s0 <= t -> chronological t l ->
             Inv (run s0 l) /\ clipTracksLevels (run s0 l)).
  { induction l as [|e l IH]; intros s0 t HC HI HT Ht Hl; [auto|].
    destruct Hl as [He Hl]. cbn [run fold_left]. fold (run (handle s0 e) l).
    destruct (handle_Inv s0 e t HI Ht He) as [HI' Ht'].
    apply (IH _ (eventTime e)); auto.
    - apply handle_Counting. exact HC.
    - apply handle_tracks; auto. apply HI. }
  destruct (H evs (mount mountedAt) mountedAt) as [HI (a & Ea & Ev & Er)];
    auto using mount_Counting, mount_Inv, mount_tracks.
  { cbn. lra. }
  fold s in HI, Ea, Ev, Er.
  destruct HI as (_ & _ & _ & _ & Hcr & _ & Hcv).
  exists a. rewrite Ev, Er. auto.
Qed.

Lemma scroll_clip_tracks_levels_witness :
  let s := run (mount 0) [Wheel 1000 (-300); AnimationFrame 1016;
                          PointerDown (Some 0%Z) 1020 (1 # 2);
                          AnimationFrame 1032] in
  exists a : HTMLAudioElement,
    scrollAudioOf s = Some a
    /\ volume a = scrollCurrentVolRef s
    /\ playbackRate a = scrollCurrentRateRef s
    /\ 0 <= volume a <= 0.32
    /\ 1 <= playbackRate a <= 1.55.
Proof.
  apply (scroll_clip_tracks_levels 0).
  cbn. repeat split; vm_compute; discriminate.
Defined.

(** *** [onPointerDown] *)

(** X6. The handler invokes [play()] only for a primary button (or an
    event without a numeric button) and only when at least 25 ms have
    passed since the last dispatch; when it does, it stamps the dispatch
    with the current time. *)
Theorem plays_only_when_due (button : option Z) (now random : Q) (s : State) :
  totalPlayCalls (heap (onPointerDown button now random s))
    <> totalPlayCalls (heap s) ->
  (button = None \/ button = Some 0%Z)
  /\ 25 <= now - lastPointerDownAtRef s
  /\ lastPointerDownAtRef (onPointerDown button now random s) = now.
Proof.
  unfold onPointerDown.
  destruct button as [b|].
  - destruct (b =? 0)%Z eqn:Eb; cbn [negb]; [|congruence].
    apply Z.eqb_eq in Eb. subst b.
    destruct (Qlt_le_dec (now - lastPointerDownAtRef s) 25); [congruence|].
    intros _. split; [auto|]. split; [assumption|].
    cbn [clickPoolsRef set_lastPointerDownAt].
    destruct (clickPoolsRef s) as [[|p0 ps]|]; try reflexivity.
    destruct (index _ _); [|reflexivity].
    destruct (playNext _ _). reflexivity.
  - destruct (Qlt_le_dec (now - lastPointerDownAtRef s) 25); [congruence|].
    intros _. split; [auto|]. split; [assumption|].
    cbn [clickPoolsRef set_lastPointerDownAt].
    destruct (clickPoolsRef s) as [[|p0 ps]|]; try reflexivity.
    destruct (index _ _); [|reflexivity].
    destruct (playNext _ _). reflexivity.
Qed.

Lemma plays_only_when_due_witness :
  (Some 0%Z = None \/ Some 0%Z = Some 0%Z)
  /\ 25 <= 100 - lastPointerDownAtRef (mount 0)
  /\ lastPointerDownAtRef (onPointerDown (Some 0%Z) 100 (1 # 2) (mount 0)) = 100.
Proof.
  apply (plays_only_when_due (Some 0%Z) 100 (1 # 2) (mount 0)).
  vm_compute. discriminate.
Defined.

(** X7. A primary click that is due, on ready pools, rewinds and plays
    exactly one element of the store, the clip under the cursor of one of
    the pools, and leaves every other element as it was. *)
Theorem click_plays_one_clip (now random : Q) (s : State) :
  poolsReady s -> 0 <= random < 1 -> 25 <= now - lastPointerDownAtRef s ->
  let s' := onPointerDown (Some 0%Z) now random s in
  exists (pools : list AudioPool) (pool : AudioPool) (a : addr)
         (x : HTMLAudioElement),
    clickPoolsRef s = Some pools /\ In pool pools
    /\ clipAt pool = Some a
    /\ deref (heap s) a = Some x
    /\ deref (heap s') a = Some (play (set_currentTime 0 x))
    /\ forall b : addr, b <> a -> deref (heap s') b = deref (heap s) b.
Proof.
  intros Hready Hr Hlate s'.
  destruct (onPointerDown_dispatch now random s Hready Hr Hlate) as (_ & Hplay & _).
  fold s' in Hplay.
  assert (Hall : forall pools, clickPoolsRef s = Some pools ->
                               Forall (poolReady (heap s)) pools).
  { destruct Hready as (pools & Ep & _ & Hr'). intros pools' Ep'.
    rewrite Ep in Ep'. injection Ep' as <-. exact Hr'. }
  destruct (onPointerDown_cases (Some 0%Z) now random s Hall)
    as [E|[E|(pools & i & pool & c & a & Ep & Ei & Ec & Ea & Ha & E)]];
    fold s' in E.
  - rewrite E in Hplay. lia.
  - rewrite E in Hplay. cbn in Hplay. lia.
  - destruct (deref_valid (heap s) a Ha) as [x Ex].
    exists pools, pool, a, x. split; [exact Ep|].
    split; [eapply nth_error_In; exact Ei|].
    split; [unfold clipAt; rewrite Ec; exact Ea|].
    split; [exact Ex|]. rewrite E.
    cbn [heap set_clickPools set_heap]. split.
    + rewrite deref_update, deref_update, Ex. reflexivity.
    + intros b Hb. rewrite !deref_update_other by congruence. reflexivity.
Qed.

Lemma click_plays_one_clip_witness :
  let s' := onPointerDown (Some 0%Z) 100 (3 # 4) (mount 0) in
  exists (pools : list AudioPool) (pool : AudioPool) (a : addr)
         (x : HTMLAudioElement),
    clickPoolsRef (mount 0) = Some pools /\ In pool pools
    /\ clipAt pool = Some a
    /\ deref (heap (mount 0)) a = Some x
    /\ deref (heap s') a = Some (play (set_currentTime 0 x))
    /\ forall b : addr, b <> a -> deref (heap s') b = deref (heap (mount 0)) b.
Proof.
  apply (click_plays_one_clip 100 (3 # 4) (mount 0)).
  - eexists. split; [reflexivity|]. split; [discriminate|].
    repeat constructor;
      (eexists; split; [reflexivity|]; split; [cbn; lia|];
       repeat constructor; cbn; lia).
  - split; [vm_compute; discriminate | reflexivity].
  - vm_compute. discriminate.
Defined.

(** *** Frames without wheel events: the rate *)

Lemma tick_tracks (now : Q) (s : State) :
  scrollReady s -> clipTracksLevels (tick now s).
Proof.
  intros (p & Ep & Hp). destruct (deref_valid (heap s) p Hp) as [a Ea].
  unfold clipTracksLevels, scrollAudioOf, tick. rewrite Ep.
  cbn [scrollAudioRef heap scrollCurrentVolRef scrollCurrentRateRef].
  set (cr := approach (scrollCurrentRateRef s) _ _).
  set (cv := approach (scrollCurrentVolRef s) _ _).
  pose proof (deref_update_same _ p (set_playbackRate cr) _ Ea) as E1.
  pose proof (deref_update_same _ p (set_volume cv) _ E1) as E2.
  destruct (_ && _).
  - pose proof (deref_update_same _ p pause _ E2) as E3.
    pose proof (deref_update_same _ p (set_currentTime 0) _ E3) as E4.
    eexists. split; [exact E4|]. split; reflexivity.
  - eexists. split; [exact E2|]. split; reflexivity.
Qed.

(** The arithmetic of one decaying frame for the rates: both in
    [[1, 1 + B]] before, both in [[1, 1 + max 0 (B - 1.2 d0)]] after. *)
Lemma rate_step (cr tr B dt d0 : Q) :
  1 <= cr <= 1 + B -> 1 <= tr <= 1 + B -> 0 <= d0 <= dt ->
  1 <= approach tr 1 (1.2 * dt) <= 1 + Qmax 0 (B - 1.2 * d0)
  /\ 1 <= approach cr (approach tr 1 (1.2 * dt)) (3.0 * dt)
     <= 1 + Qmax 0 (B - 1.2 * d0).
Proof.
  intros Hcr Htr Hd.
  assert (H1 : 1 <= approach tr 1 (1.2 * dt) <= 1 + Qmax 0 (B - 1.2 * d0)).
  { rewrite approach_down by lra. split_minmax; lra. }
  split; [exact H1|].
  set (tr' := approach tr 1 (1.2 * dt)) in *. clearbody tr'.
  destruct (Qlt_le_dec cr tr') as [Hlt|Hge].
  - rewrite approach_up by lra. split_minmax; lra.
  - rewrite approach_down by lra. split_minmax; lra.
Qed.

Section IdleRate.

Variable gap : Q.
Hypothesis gap_pos : 0 < gap.

Lemma ticks_keep_levels (times : list Q) (s : State) :
  scrollReady s -> levelsInRange s -> paced gap (lastRafAt s) times ->
  levelsInRange (ticks s times).
Proof.
  revert s. induction times as [|t rest IH]; intros s Hs Hl Hp; [exact Hl|].
  destruct Hp as [Ht Hp]. cbn [ticks fold_left]. fold (ticks (tick t s) rest).
  pose proof gap_pos.
  apply IH.
  - apply (handle_scrollReady s (AnimationFrame t) Hs).
  - apply tick_levels; auto. lra.
  - rewrite tick_lastRafAt by exact Hs. exact Hp.
Qed.

Lemma ticks_rate_fade (times : list Q) (s : State) (B : Q) :
  scrollReady s -> paced gap (lastRafAt s) times ->
  lastWheelAtRef s + 90 <= lastRafAt s ->
  1 <= scrollCurrentRateRef s <= 1 + B -> 1 <= scrollTargetRateRef s <= 1 + B ->
  let s' := ticks s times in
  let B' := Qmax 0 (B - Qnat (List.length times)
                         * (1.2 * Qmin 0.05 (gap / 1000))) in
  1 <= scrollCurrentRateRef s' <= 1 + B'
  /\ 1 <= scrollTargetRateRef s' <= 1 + B'
  /\ (times <> [] -> clipTracksLevels s').
Proof.
  revert s B. induction times as [|t rest IH]; intros s B Hs Hp Hw Hcr Htr.
  - cbn. change (Qnat 0) with 0. split; [|split].
    + split_minmax; lra.
    + split_minmax; lra.
    + congruence.
  - destruct Hp as [Ht Hp]. cbn [ticks fold_left].
    fold (ticks (tick t s) rest).
    pose proof gap_pos as Hgap.
    set (d := 1.2 * Qmin 0.05 (gap / 1000)) in *.
    assert (Hd : 0 <= d).
    { unfold d. abstract_div. split_minmax; lra. }
    pose proof (handle_scrollReady s (AnimationFrame t) Hs) as Hs1.
    cbn [handle] in Hs1.
    pose proof (tick_lastRafAt t s Hs) as Et.
    destruct (tick_frame t s) as (_ & _ & _ & Ew & _).
    assert (Hstep : 1 <= scrollCurrentRateRef (tick t s) <= 1 + Qmax 0 (B - d)
                    /\ 1 <= scrollTargetRateRef (tick t s) <= 1 + Qmax 0 (B - d)).
    { destruct Hs as (p & Ep & _). unfold tick. rewrite Ep.
      cbn [scrollCurrentRateRef scrollTargetRateRef].
      destruct (Qlt_le_dec 90 (t - lastWheelAtRef s)) as [_|Hle]; [|lra].
      set (dt := Qmin 0.05 ((t - lastRafAt s) / 1000)).
      assert (Hdt : 0 <= Qmin 0.05 (gap / 1000) <= dt).
      { unfold dt. abstract_div. split_minmax; lra. }
      clearbody dt.
      destruct (rate_step _ _ B dt _ Hcr Htr Hdt) as [R1 R2].
      split; assumption. }
    destruct Hstep as [C1 C2].
    assert (Hw1 : lastWheelAtRef (tick t s) + 90 <= lastRafAt (tick t s))
      by (rewrite Et, Ew; lra).
    rewrite <- Et in Hp.
    destruct (IH (tick t s) _ Hs1 Hp Hw1 C1 C2) as (I1 & I2 & I3).
    fold d in I1, I2.
    assert (Hbound :
      Qmax 0 (Qmax 0 (B - d) - Qnat (List.length rest) * d)
      <= Qmax 0 (B - Qnat (List.length (t :: rest)) * d)).
    { cbn [List.length]. pose proof (Qnat_S (List.length rest)) as HS.
      assert (HSd : Qnat (S (List.length rest)) * d
                    == Qnat (List.length rest) * d + d) by (rewrite HS; ring).
      assert (Hk : 0 <= Qnat (List.length rest) * d)
        by (apply Qmult_le_0_compat; [apply Qnat_nonneg | exact Hd]).
      set (k := Qnat (List.length rest) * d) in *.
      set (k' := Qnat (S (List.length rest)) * d) in *. clearbody k k' d.
      split_minmax; lra. }
    split; [|split].
    + split; [apply I1|]. destruct I1 as [_ I1]. lra.
    + split; [apply I2|]. destruct I2 as [_ I2]. lra.
    + intros _. destruct rest as [|t' rest'].
      * cbn [ticks fold_left]. apply tick_tracks. exact Hs.
      * apply I3. discriminate.
Qed.

End IdleRate.

(** X8. Without further wheel events, frames at least [gap > 0] apart bring
    the playback rate back to rest: from some number of frames on the
    target rate, the current rate and the rate of the clip are 1. *)
Theorem idle_rate_returns_to_one (s : State) (gap : Q) :
  scrollReady s -> levelsInRange s -> 0 < gap ->
  exists N : nat, forall times : list Q,
    paced gap (lastRafAt s) times -> (N <= List.length times)%nat ->
    scrollTargetRateRef (ticks s times) == 1
    /\ scrollCurrentRateRef (ticks s times) == 1
    /\ exists a : HTMLAudioElement,
         scrollAudioOf (ticks s times) = Some a /\ playbackRate a == 1.
Proof.
  intros Hs Hl Hgap.
  set (d := 1.2 * Qmin 0.05 (gap / 1000)).
  assert (Hd : 0 < d).
  { unfold d. abstract_div. split_minmax; lra. }
  destruct (archimedean (lastWheelAtRef s + 90 - lastRafAt s) gap Hgap)
    as [N0 HN0].
  destruct (archimedean 0.55 d Hd) as [N1 HN1].
  exists (N0 + S N1)%nat. intros times Hp Hlen.
  rewrite <- (firstn_skipn N0 times) in Hp |- *.
  set (l1 := firstn N0 times) in *. set (l2 := skipn N0 times) in *.
  assert (Hl1 : List.length l1 = N0) by (unfold l1; rewrite length_firstn; lia).
  assert (Hl2 : (S N1 <= List.length l2)%nat)
    by (unfold l2; rewrite length_skipn; lia).
  rewrite ticks_app.
  assert (Hp1 : paced gap (lastRafAt s) l1).
  { clear - Hp. revert Hp. generalize (lastRafAt s).
    induction l1 as [|t l1 IH]; intros e Hp; [exact I|].
    destruct Hp as [Ht Hp]. split; [exact Ht | apply IH; exact Hp]. }
  pose proof (ticks_keep_levels gap Hgap l1 s Hs Hl Hp1)
    as (_ & Htr & Hcr & _ & _).
  destruct Hl as (_ & _ & _ & Htv & Hcv).
  destruct (ticks_prefix gap Hgap 0.32 l1 l2 s Hs Hp Hcv Htv)
    as (P1 & _ & _ & P4 & P5 & P6).
  rewrite Hl1 in P4.
  assert (Hw : lastWheelAtRef (ticks s l1) + 90 <= lastRafAt (ticks s l1))
    by (rewrite P5; lra).
  destruct (ticks_rate_fade gap Hgap l2 (ticks s l1) 0.55 P1 P6 Hw)
    as (F1 & F2 & F3); [lra | lra |].
  fold d in F1, F2.
  assert (Hk : Qnat N1 * d <= Qnat (List.length l2) * d)
    by (apply Qnat_mult_le; [lra | lia]).
  set (k := Qnat (List.length l2) * d) in *.
  set (k1 := Qnat N1 * d) in *. clearbody k k1.
  assert (Hcur : scrollCurrentRateRef (ticks (ticks s l1) l2) == 1)
    by (revert F1; split_minmax; intros; lra).
  assert (Htgt : scrollTargetRateRef (ticks (ticks s l1) l2) == 1)
    by (revert F2; split_minmax; intros; lra).
  split; [exact Htgt|]. split; [exact Hcur|].
  destruct F3 as (a & Ea & _ & Er).
  { destruct l2; [simpl in Hl2; lia | discriminate]. }
  exists a. split; [exact Ea|]. rewrite Er. exact Hcur.
Qed.

Lemma idle_rate_returns_to_one_witness :
  let s := onWheel 1000 (-300) (mount 0) in
  exists N : nat, forall times : list Q,
    paced 16 (lastRafAt s) times -> (N <= List.length times)%nat ->
    scrollTargetRateRef (ticks s times) == 1
    /\ scrollCurrentRateRef (ticks s times) == 1
    /\ exists a : HTMLAudioElement,
         scrollAudioOf (ticks s times) = Some a /\ playbackRate a == 1.
Proof.
  apply (idle_rate_returns_to_one (onWheel 1000 (-300) (mount 0)) 16).
  - exists 8%nat. split; [reflexivity | cbn; lia].
  - cbn. repeat split; vm_compute; discriminate.
  - reflexivity.
Defined.

(** *** Pools *)

Lemma allocClips_store (n : nat) (h : Heap) (url : string) (vol : Q) :
  fst (allocClips h url vol n)
  = h ++ repeat (set_volume vol (set_preload "auto" (newAudio url))) n.
Proof.
  revert h. induction n as [|n IH]; intros h; cbn [allocClips repeat].
  - cbn. rewrite app_nil_r. reflexivity.
  - unfold alloc. specialize (IH (h ++ [set_volume vol (set_preload "auto" (newAudio url))])).
    destruct (allocClips _ url vol n) as [h2 ps]. cbn [fst] in *.
    rewrite IH, <- app_assoc. reflexivity.
Qed.

Lemma playNext_heap (h : Heap) (pool : AudioPool) (a : addr) :
  clipAt pool = Some a ->
  fst (playNext h pool) = update (update h a (set_currentTime 0)) a play.
Proof. intros E. unfold playNext. rewrite E. reflexivity. Qed.

Lemma round_robin_arith (N K j : nat) :
  (0 < K)%nat -> (j < K)%nat ->
  (S N / K + (if (j <? S N mod K)%nat then 1 else 0)
   = N / K + (if (j <? N mod K)%nat then 1 else 0)
     + (if (j =? N mod K)%nat then 1 else 0))%nat.
Proof.
  intros HK Hj.
  pose proof (Nat.div_mod_eq N K) as E.
  pose proof (Nat.mod_upper_bound N K ltac:(lia)) as Hr.
  set (q := (N / K)%nat) in *. set (r := (N mod K)%nat) in *.
  destruct (Nat.eq_dec (S r) K) as [Hlast|Hmid].
  - assert (Eq : (S q = S N / K)%nat)
      by (apply (Nat.div_unique (S N) K (S q) 0); nia).
    assert (Er : (0 = S N mod K)%nat)
      by (apply (Nat.mod_unique (S N) K (S q) 0); nia).
    rewrite <- Eq, <- Er.
    destruct (Nat.ltb_spec j 0); destruct (Nat.ltb_spec j r);
      destruct (Nat.eqb_spec j r); lia.
  - assert (Eq : (q = S N / K)%nat)
      by (apply (Nat.div_unique (S N) K q (S r)); nia).
    assert (Er : (S r = S N mod K)%nat)
      by (apply (Nat.mod_unique (S N) K q (S r)); nia).
    rewrite <- Eq, <- Er.
    destruct (Nat.ltb_spec j (S r)); destruct (Nat.ltb_spec j r);
      destruct (Nat.eqb_spec j r); lia.
Qed.

(** The state of a fresh pool of [K > 0] clips after [N] plays, clip by
    clip. *)
Lemma playMany_fresh (h : Heap) (url : string) (K : nat) (vol : Q) (N : nat) :
  (0 < K)%nat ->
  let fresh := makeAudioPool h url K vol in
  let after := playMany N (fst fresh) (snd fresh) in
  nextIndex (snd after) = Idx (N mod K)
  /\ clips (snd after) = seq (List.length h) K
  /\ List.length (fst after) = (List.length h + K)%nat
  /\ forall j : nat, (j < K)%nat ->
       option_map playCalls (deref (fst after) (List.length h + j)%nat)
       = Some (N / K + if (j <? N mod K)%nat then 1 else 0)%nat.
Proof.
  intros HK fresh after. subst after.
  destruct (makeAudioPool_spec h url K vol) as (E0 & Ec & El).
  fold fresh in E0, Ec, El.
  induction N as [|N IH].
  - cbn [playMany]. rewrite Nat.Div0.mod_0_l, Nat.Div0.div_0_l.
    repeat split; auto. intros j Hj.
    unfold fresh, makeAudioPool.
    pose proof (allocClips_store K h url vol) as Es.
    destruct (allocClips h url vol K) as [h' cs]. cbn [fst] in *.
    rewrite Es. unfold deref.
    rewrite nth_error_app2 by lia.
    replace (List.length h + j - List.length h)%nat with j by lia.
    rewrite nth_error_repeat by exact Hj. reflexivity.
  - destruct IH as (I1 & I2 & I3 & I4). cbn [playMany].
    destruct (playMany N (fst fresh) (snd fresh)) as [h1 pool1].
    cbn [fst snd] in *.
    pose proof (Nat.mod_upper_bound N K ltac:(lia)) as Hr.
    assert (Ea : clipAt pool1 = Some (List.length h + N mod K)%nat).
    { unfold clipAt. rewrite I1, I2, nth_error_seq.
      destruct (N mod K <? K)%nat eqn:E; [reflexivity|].
      apply Nat.ltb_ge in E. lia. }
    assert (Hall : Forall (fun a : addr => (a < List.length h1)%nat)
                          (clips pool1)).
    { rewrite I2, I3. apply Forall_forall. intros a Ha.
      apply in_seq in Ha. lia. }
    assert (Hi : (N mod K < List.length (clips pool1))%nat)
      by (rewrite I2, length_seq; exact Hr).
    destruct (playNext_ready h1 pool1 (N mod K) I1 Hi Hall)
      as (P1 & P2 & P3 & _).
    pose proof (playNext_heap h1 pool1 _ Ea) as Eh.
    destruct (playNext h1 pool1) as [h2 pool2]. cbn [fst snd] in *.
    rewrite I2, length_seq in P1.
    split; [|split; [|split]].
    + rewrite P1. f_equal. rewrite Nat.Div0.add_mod_idemp_l. f_equal. lia.
    + congruence.
    + congruence.
    + intros j Hj. rewrite round_robin_arith by assumption.
      specialize (I4 j Hj). subst h2.
      destruct (Nat.eq_dec j (N mod K)) as [->|Hne].
      * rewrite Nat.eqb_refl. rewrite !deref_update.
        destruct (deref h1 (List.length h + N mod K)%nat) as [x|];
          [|discriminate].
        cbn in *. injection I4 as I4. rewrite I4. f_equal. lia.
      * rewrite !deref_update_other by lia.
        destruct (j =? N mod K)%nat eqn:E;
          [apply Nat.eqb_eq in E; contradiction|].
        rewrite I4. f_equal. lia.
Qed.

(** X9. Round robin is fair: after [N] plays drawn from a fresh pool of
    [K > 0] clips, the clip at position [j] has been played [N / K] times,
    and once more if [j < N mod K]; a clip is played again only after the
    [K - 1] others. *)
Theorem round_robin_is_fair
        (h : Heap) (url : string) (K : nat) (vol : Q) (N j : nat) :
  (j < K)%nat ->
  let fresh := makeAudioPool h url K vol in
  let after := playMany N (fst fresh) (snd fresh) in
  nth_error (clips (snd after)) j = Some (List.length h + j)%nat
  /\ option_map playCalls (deref (fst after) (List.length h + j)%nat)
     = Some (N / K + if (j <? N mod K)%nat then 1 else 0)%nat.
Proof.
  intros Hj fresh after.
  destruct (playMany_fresh h url K vol N ltac:(lia)) as (_ & Ec & _ & Hplays).
  fold fresh in Ec, Hplays. fold after in Ec, Hplays.
  split; [|apply Hplays; exact Hj].
  rewrite Ec, nth_error_seq.
  destruct (j <? K)%nat eqn:E; [reflexivity|].
  apply Nat.ltb_ge in E. lia.
Qed.

Lemma round_robin_is_fair_witness :
  let fresh := makeAudioPool [] "/sounds/clickUp.mp3" 4 0.35 in
  let after := playMany 6 (fst fresh) (snd fresh) in
  nth_error (clips (snd after)) 1 = Some (0 + 1)%nat
  /\ option_map playCalls (deref (fst after) (0 + 1)%nat)
     = Some (6 / 4 + if (1 <? 6 mod 4)%nat then 1 else 0)%nat.
Proof.
  apply (round_robin_is_fair [] "/sounds/clickUp.mp3" 4 0.35 6 1). lia.
Defined.

(** X10. A pool made with no clips never plays: every play leaves the
    store as it was, invokes nothing, and from the first play on the
    cursor is NaN. *)
Theorem empty_pool_never_plays
        (h : Heap) (url : string) (vol : Q) (N : nat) :
  let fresh := makeAudioPool h url 0 vol in
  let after := playMany (S N) (fst fresh) (snd fresh) in
  fst fresh = h /\ clips (snd fresh) = []
  /\ fst after = h
  /\ nextIndex (snd after) = NaN
  /\ clips (snd after) = [].
Proof.
  cbn [makeAudioPool allocClips fst snd].
  assert (H : forall n i, fst (playMany n h (mkPool i [])) = h
                     /\ clips (snd (playMany n h (mkPool i []))) = []
                     /\ (nextIndex (snd (playMany n h (mkPool i []))) = NaN
                         \/ (n = 0%nat /\ nextIndex (snd (playMany n h (mkPool i []))) = i))).
  { induction n as [|n IH]; intros i; [cbn; auto|].
    destruct (IH i) as (I1 & I2 & I3). cbn [playMany].
    destruct (playMany n h (mkPool i [])) as [h1 [c1 cs1]].
    cbn [fst snd clips nextIndex] in *. subst h1 cs1.
    unfold playNext, clipAt, nextCursor. cbn [nextIndex clips List.length].
    destruct c1 as [k|]; [destruct k|]; cbn; auto. }
  destruct (H (S N) (Idx 0)) as (H1 & H2 & [H3|[H3 _]]); [|discriminate].
  repeat split; assumption.
Qed.

(** X11. Making the click pools only appends to the store: the elements
    already there are untouched, each url gets a pool of 4 new clips with
    the cursor at 0, and no clip belongs to two pools or twice to one. *)
Theorem makePools_separate (h : Heap) (urls : list string) :
  let made := makePools h urls in
  (exists added : Heap,
      fst made = h ++ added
      /\ List.length added = (4 * List.length urls)%nat)
  /\ List.length (snd made) = List.length urls
  /\ Forall (fun pool => nextIndex pool = Idx 0
                         /\ List.length (clips pool) = 4%nat) (snd made)
  /\ flat_map clips (snd made)
     = seq (List.length h) (4 * List.length urls)
  /\ NoDup (flat_map clips (snd made)).
Proof.
  assert (H : forall l h0,
    (exists added : Heap,
        fst (makePools h0 l) = h0 ++ added
        /\ List.length added = (4 * List.length l)%nat)
    /\ List.length (snd (makePools h0 l)) = List.length l
    /\ Forall (fun pool => nextIndex pool = Idx 0
                           /\ List.length (clips pool) = 4%nat)
              (snd (makePools h0 l))
    /\ flat_map clips (snd (makePools h0 l))
       = seq (List.length h0) (4 * List.length l)).
  { induction l as [|url rest IH]; intros h0.
    - cbn. split; [exists []; rewrite app_nil_r; auto|]. auto.
    - cbn [makePools].
      destruct (makeAudioPool_spec h0 url 4 0.35) as (E0 & Ec & El).
      pose proof (allocClips_store 4 h0 url 0.35) as Es.
      unfold makeAudioPool in *.
      destruct (allocClips h0 url 0.35 4) as [h1 cs]. cbn [fst snd] in *.
      cbn [clips nextIndex] in *.
      destruct (IH h1) as ((added & Ea & La) & I2 & I3 & I4).
      destruct (makePools h1 rest) as [h2 pools]. cbn [fst snd] in *.
      split; [|split; [|split]].
      + eexists. rewrite Ea, Es, <- app_assoc. split; [reflexivity|].
        rewrite length_app, repeat_length, La. cbn [List.length]. lia.
      + cbn [List.length]. lia.
      + constructor; [|exact I3]. cbn [nextIndex clips].
        split; [reflexivity|]. rewrite Ec. apply length_seq.
      + cbn [flat_map clips List.length]. rewrite I4, Ec, El.
        replace (4 * S (List.length rest))%nat
          with (4 + 4 * List.length rest)%nat by lia.
        rewrite seq_app. reflexivity. }
  intros made. destruct (H urls h) as (H1 & H2 & H3 & H4).
  fold made in H1, H2, H3, H4.
  repeat split; auto. rewrite H4. apply seq_NoDup.
Qed.

End SoundExtra.

(* ===================================================================== *)
(** * Further properties of the scene                                     *)
(* ===================================================================== *)

Module SceneExtra.

Import Scene SceneSpec.
Local Open Scope R_scope.

(** *** What a frame and a handler leave alone *)

Lemma useFrame_fields (rev : Revision) (dt : R) (s : State) :
  let s' := ImageTube_useFrame rev dt s in
  isHovering s' = isHovering s
  /\ tubeNaturalDir s' = tubeNaturalDir s
  /\ tubeAngle s' = angle s'
  /\ speedMultiplier s'
     = match rev with
       | Part000 =>
           speedMultiplier s + (targetMultiplier s - speedMultiplier s) * 0.1
       | Part001 => speedMultiplier s
       end
  /\ angle s'
     = match rev with
       | Part000 =>
           angle s + (tubeNaturalDir s * 0.25 * speedMultiplier s'
                      + tubeSpinVelocity s' * speedMultiplier s') * dt
       | Part001 =>
           angle s + (tubeNaturalDir s * 0.25 + tubeSpinVelocity s') * dt
       end.
Proof.
  unfold ImageTube_useFrame, targetMultiplier.
  destruct (wrapScroll _ _ _ _) as [[c t] w].
  destruct rev; repeat split; reflexivity.
Qed.

Lemma frame_fields (rev : Revision) (elapsed dt : R) (s : State) :
  let s' := frame rev elapsed dt s in
  isHovering s' = isHovering s
  /\ tubeNaturalDir s' = tubeNaturalDir s
  /\ tubeAngle s' = angle s'
  /\ speedMultiplier s'
     = match rev with
       | Part000 =>
           speedMultiplier s + (targetMultiplier s - speedMultiplier s) * 0.1
       | Part001 => speedMultiplier s
       end
  /\ angle s'
     = match rev with
       | Part000 =>
           angle s + (tubeNaturalDir s * 0.25 * speedMultiplier s'
                      + tubeSpinVelocity s' * speedMultiplier s') * dt
       | Part001 =>
           angle s + (tubeNaturalDir s * 0.25 + tubeSpinVelocity s') * dt
       end
  /\ -2 <= tubeSpinVelocity s' <= 2.
Proof.
  destruct rev; unfold frame.
  - destruct (useFrame_fields Part000 dt s) as (A & B & C & D & E).
    repeat split; auto; rewrite useFrame_spin; apply clampSpin_range.
  - destruct (useFrame_fields Part001 dt (GridPlane_useFrame true elapsed s))
      as (A & B & C & D & E).
    repeat split; auto; rewrite useFrame_spin; apply clampSpin_range.
Qed.

(** The facts about the rotation refs that every run keeps. *)
Lemma step_rotation_inv (rev : Revision) (s : State) (i : Input) :
  (tubeNaturalDir s = 1 \/ tubeNaturalDir s = -1) ->
  0.05 <= speedMultiplier s <= 1 ->
  tubeAngle s = angle s ->
  (tubeNaturalDir (step rev s i) = 1 \/ tubeNaturalDir (step rev s i) = -1)
  /\ 0.05 <= speedMultiplier (step rev s i) <= 1
  /\ tubeAngle (step rev s i) = angle (step rev s i).
Proof.
  intros Hd Hm Ha. destruct i as [cx cy l t w h| |dy|b|elapsed dt]; cbn [step].
  - unfold onPointerMove. destruct (Rle_dec w 0); [auto|].
    destruct (Rle_dec h 0); auto.
  - auto.
  - unfold onWheel. cbn [tubeNaturalDir speedMultiplier tubeAngle angle].
    repeat split; try apply Hm; try exact Ha.
    destruct (Rlt_dec dy 0); [right; reflexivity|].
    destruct (Rlt_dec 0 dy); [left; reflexivity | exact Hd].
  - destruct rev; auto.
  - destruct (frame_fields rev elapsed dt s) as (_ & B & C & D & _).
    rewrite B, D. split; [exact Hd|]. split; [|exact C].
    unfold targetMultiplier. destruct rev; [|exact Hm].
    destruct (isHovering s); lra.
Qed.

Lemma run_rotation_inv (rev : Revision) (inputs : list Input) :
  let s := run rev initial inputs in
  (tubeNaturalDir s = 1 \/ tubeNaturalDir s = -1)
  /\ 0.05 <= speedMultiplier s <= 1
  /\ tubeAngle s = angle s.
Proof.
  assert (H : forall l s0,
             (tubeNaturalDir s0 = 1 \/ tubeNaturalDir s0 = -1) ->
             0.05 <= speedMultiplier s0 <= 1 -> tubeAngle s0 = angle s0 ->
             (tubeNaturalDir (run rev s0 l) = 1
              \/ tubeNaturalDir (run rev s0 l) = -1)
             /\ 0.05 <= speedMultiplier (run rev s0 l) <= 1
             /\ tubeAngle (run rev s0 l) = angle (run rev s0 l)).
  { induction l as [|i l IH]; intros s0 Hd Hm Ha; [auto|].
    cbn [run fold_left].
    destruct (step_rotation_inv rev s0 i Hd Hm Ha) as (A & B & C).
    apply IH; assumption. }
  apply H; cbn; [left; reflexivity | lra | reflexivity].
Qed.

(** X12. In every run the rotation stays tame: the companion model's
    angle is the tube's own angle, the natural direction is 1 or -1, the
    hover multiplier is in [[0.05, 1]], and a frame of [dt >= 0] turns the
    tube by at most [2.25 dt]. *)
Theorem rotation_rate_bounded
        (rev : Revision) (inputs : list Input) (elapsed dt : R) :
  0 <= dt ->
  let s := run rev initial inputs in
  let s' := frame rev elapsed dt s in
  tubeAngle s = angle s
  /\ (tubeNaturalDir s = 1 \/ tubeNaturalDir s = -1)
  /\ 0.05 <= speedMultiplier s <= 1
  /\ tubeAngle s' = angle s'
  /\ Rabs (angle s' - angle s) <= 2.25 * dt.
Proof.
  intros Hdt s s'.
  destruct (run_rotation_inv rev inputs) as (Hd & Hm & Ha). fold s in Hd, Hm, Ha.
  destruct (step_rotation_inv rev s (Frame elapsed dt) Hd Hm Ha)
    as (_ & Hm' & Ha'). cbn [step] in Hm', Ha'. fold s' in Hm', Ha'.
  destruct (frame_fields rev elapsed dt s) as (_ & _ & _ & _ & E & Hv).
  fold s' in E, Hv.
  repeat split; auto; try apply Hm.
  rewrite E.
  set (m := speedMultiplier s') in *. set (v := tubeSpinVelocity s') in *.
  set (d := tubeNaturalDir s) in *. clearbody m v d.
  assert (Hvm : -2 <= v * m <= 2) by nra.
  set (vm := v * m) in *. clearbody vm.
  assert (Hk : -2.25 <= match rev with
                        | Part000 => d * 0.25 * m + vm
                        | Part001 => d * 0.25 + v
                        end <= 2.25)
    by (destruct rev; destruct Hd as [-> | ->]; lra).
  destruct rev.
  - set (k := d * 0.25 * m + vm) in *. clearbody k.
    replace (angle s + k * dt - angle s) with (k * dt) by ring.
    unfold Rabs. destruct (Rcase_abs _); nra.
  - set (k := d * 0.25 + v) in *. clearbody k.
    replace (angle s + k * dt - angle s) with (k * dt) by ring.
    unfold Rabs. destruct (Rcase_abs _); nra.
Qed.

Lemma rotation_rate_bounded_witness :
  let s := run Part000 initial [WheelInput (-300); Hover true; Frame 0 0.016] in
  let s' := frame Part000 0.016 0.016 s in
  tubeAngle s = angle s
  /\ (tubeNaturalDir s = 1 \/ tubeNaturalDir s = -1)
  /\ 0.05 <= speedMultiplier s <= 1
  /\ tubeAngle s' = angle s'
  /\ Rabs (angle s' - angle s) <= 2.25 * 0.016.
Proof.
  apply (rotation_rate_bounded Part000
           [WheelInput (-300); Hover true; Frame 0 0.016] 0.016 0.016).
  lra.
Defined.

(** *** Runs of frames *)

(** X13. Over [n] frames with no other input the hover multiplier of
    part_000 closes nine tenths of its distance to the value the hover flag
    asks for, frame after frame: it is [target + 0.9^n (m - target)]. *)
Theorem hover_multiplier_geometric (inputs : list Input) (s : State) :
  framesOnly inputs ->
  let s' := run Part000 s inputs in
  isHovering s' = isHovering s
  /\ speedMultiplier s'
     = targetMultiplier s
       + 0.9 ^ List.length inputs * (speedMultiplier s - targetMultiplier s).
Proof.
  revert s. induction inputs as [|i rest IH]; intros s Hf.
  - cbn. split; [reflexivity | ring].
  - destruct i as [cx cy l t w h| |dy|b|elapsed dt]; try contradiction.
    cbn [framesOnly] in Hf. cbn [run fold_left step].
    destruct (IH (frame Part000 elapsed dt s) Hf) as [I1 I2].
    destruct (frame_fields Part000 elapsed dt s) as (A & _ & _ & D & _).
    fold (run Part000 (frame Part000 elapsed dt s) rest).
    split; [congruence|]. rewrite I2. unfold targetMultiplier in *.
    rewrite A, D. cbn [List.length pow]. unfold targetMultiplier.
    set (p := 0.9 ^ List.length rest). clearbody p.
    destruct (isHovering s); nra.
Qed.

Lemma hover_multiplier_geometric_witness :
  let s := handleHover true initial in
  let s' := run Part000 s [Frame 0 0.016; Frame 0.016 0.016] in
  isHovering s' = isHovering s
  /\ speedMultiplier s'
     = targetMultiplier s + 0.9 ^ 2 * (speedMultiplier s - targetMultiplier s).
Proof.
  apply (hover_multiplier_geometric [Frame 0 0.016; Frame 0.016 0.016]
           (handleHover true initial)).
  exact I.
Defined.

(** X14. Over [n] frames with no other input the scroll position closes
    0.12 of its distance to the target on every frame, wraps or not: the
    distance is [0.88^n] times what it was, and the unwrapped target has
    not moved. *)
Theorem scroll_lead_geometric
        (rev : Revision) (inputs : list Input) (s : State) :
  framesOnly inputs ->
  let s' := run rev s inputs in
  tubeScrollTarget s' - scrollCurrent s'
  = 0.88 ^ List.length inputs * (tubeScrollTarget s - scrollCurrent s)
  /\ unwrappedTarget rev s' = unwrappedTarget rev s.
Proof.
  revert s. induction inputs as [|i rest IH]; intros s Hf.
  - cbn. split; [ring | reflexivity].
  - destruct i as [cx cy l t w h| |dy|b|elapsed dt]; try contradiction.
    cbn [framesOnly] in Hf. cbn [run fold_left step].
    destruct (IH (frame rev elapsed dt s) Hf) as [I1 I2].
    destruct (frame_unwrapped rev elapsed dt s) as [U1 U2].
    fold (run rev (frame rev elapsed dt s) rest).
    split; [|congruence]. rewrite I1. cbn [List.length pow].
    assert (E : tubeScrollTarget (frame rev elapsed dt s)
                - scrollCurrent (frame rev elapsed dt s)
                = 0.88 * (tubeScrollTarget s - scrollCurrent s)).
    { unfold unwrappedCurrent, unwrappedTarget in U1, U2. lra. }
    rewrite E. ring.
Qed.

Lemma scroll_lead_geometric_witness :
  let s := onWheel 5000 initial in
  let s' := run Part001 s [Frame 0 0.016; Frame 0.016 0.016; Frame 0.032 0.016] in
  tubeScrollTarget s' - scrollCurrent s'
  = 0.88 ^ 3 * (tubeScrollTarget s - scrollCurrent s)
  /\ unwrappedTarget Part001 s' = unwrappedTarget Part001 s.
Proof.
  apply (scroll_lead_geometric Part001
           [Frame 0 0.016; Frame 0.016 0.016; Frame 0.032 0.016]
           (onWheel 5000 initial)).
  exact I.
Defined.

(** X15. The wrap keeps the scroll position inside half a loop height, as
    long as the target is no farther ahead or behind than [L / 0.12]: one
    frame takes off at most one loop height. *)
Theorem scroll_stays_in_loop (rev : Revision) (dt : R) (s : State) :
  let L := loopHeight rev in
  - L / 2 <= scrollCurrent s <= L / 2 ->
  - L / 0.12 <= tubeScrollTarget s - scrollCurrent s <= L / 0.12 ->
  - L / 2 <= scrollCurrent (ImageTube_useFrame rev dt s) <= L / 2.
Proof.
  intros L Hc Hl.
  pose proof (loopHeight_pos rev) as HL. fold L in HL.
  pose proof (useFrame_scroll rev dt s) as E. cbv zeta in E.
  unfold wrapScroll, easeScroll in E. fold L in E.
  set (c := scrollCurrent s) in *. set (t := tubeScrollTarget s) in *.
  assert (Hlead : - L <= (t - c) * 0.12 <= L) by lra.
  clearbody c t.
  destruct (Rlt_dec (L / 2) (c + (t - c) * 0.12));
    [|destruct (Rlt_dec (c + (t - c) * 0.12) (- L / 2))];
    injection E as -> _ _; lra.
Qed.

Lemma scroll_stays_in_loop_witness :
  let s := mkState (mkVector2 0.5 0.5) (mkVector2 0.5 0.5) 0 10 0 1 0 4 0
                   false 1 0%Z in
  - loopHeight Part000 / 2
    <= scrollCurrent (ImageTube_useFrame Part000 0.016 s)
    <= loopHeight Part000 / 2.
Proof.
  intros s.
  apply (scroll_stays_in_loop Part000 0.016 s);
    unfold loopHeight, rows, ySpacing; cbn; lra.
Defined.

(** *** Layout of the tube *)

Lemma rowSpeed_nth (rows r : nat) :
  (r < rows)%nat -> nth_error (rowSpeed rows) r = Some (rowSpeedOf rows r).
Proof.
  intros Hr. unfold rowSpeed.
  rewrite nth_error_map, nth_error_seq.
  destruct (Nat.ltb_spec r rows); [reflexivity | lia].
Qed.

Lemma rowSpeed_length (rows : nat) : List.length (rowSpeed rows) = rows.
Proof. unfold rowSpeed. rewrite length_map, length_seq. reflexivity. Qed.

Lemma rowSpeed_bound (rows r : nat) (speed : R) :
  nth_error (rowSpeed rows) r = Some speed -> (r < rows)%nat.
Proof.
  intros E. rewrite <- (rowSpeed_length rows).
  apply nth_error_Some. congruence.
Qed.

Lemma rowSpeedOf_range (rows r : nat) :
  (r < rows)%nat -> 0.65 <= rowSpeedOf rows r <= 1.55.
Proof.
  intros Hr. unfold rowSpeedOf.
  destruct (Nat.leb_spec rows 1) as [Hle|Hgt]; [lra|].
  assert (Hd : 0 < INR rows - 1).
  { apply lt_INR in Hgt. cbn in Hgt. lra. }
  assert (Hrr : 0 <= INR r <= INR rows - 1).
  { split; [apply pos_INR|].
    assert (H : (S r <= rows)%nat) by lia.
    apply le_INR in H. rewrite S_INR in H. lra. }
  set (t := INR r / (INR rows - 1)).
  assert (Et : t * (INR rows - 1) = INR r) by (unfold t; field; lra).
  clearbody t. nra.
Qed.

(** X16. The row speeds: one per row, each between 0.65 and 1.55, the
    first 0.65; with two rows or more the last is 1.55 and each row is
    faster than the one before by the same [0.9 / (rows - 1)]; with a
    single row the speed is 0.65. *)
Theorem row_speeds_linear (rows : nat) :
  List.length (rowSpeed rows) = rows
  /\ (forall r speed, nth_error (rowSpeed rows) r = Some speed ->
                     0.65 <= speed <= 1.55)
  /\ ((0 < rows)%nat -> nth_error (rowSpeed rows) 0 = Some 0.65)
  /\ ((1 < rows)%nat -> nth_error (rowSpeed rows) (rows - 1) = Some 1.55)
  /\ (forall r a b,
        nth_error (rowSpeed rows) r = Some a ->
        nth_error (rowSpeed rows) (S r) = Some b ->
        b - a = 0.9 / (INR rows - 1) /\ a < b).
Proof.
  split; [apply rowSpeed_length|].
  split; [|split; [|split]].
  - intros r speed E.
    pose proof (rowSpeed_bound rows r speed E) as Hr.
    rewrite rowSpeed_nth in E by exact Hr. injection E as <-.
    apply rowSpeedOf_range. exact Hr.
  - intros H. rewrite rowSpeed_nth by exact H. f_equal.
    unfold rowSpeedOf. destruct (rows <=? 1)%nat; cbn; lra.
  - intros H. rewrite rowSpeed_nth by lia. f_equal.
    unfold rowSpeedOf. destruct (Nat.leb_spec rows 1) as [Hle|Hgt]; [lia|].
    assert (Hd : 0 < INR rows - 1).
    { apply lt_INR in Hgt. cbn in Hgt. lra. }
    rewrite minus_INR by lia. cbn [INR].
    replace ((INR rows - 1) / (INR rows - 1)) with 1 by (field; lra). lra.
  - intros r a b Ea Eb.
    pose proof (rowSpeed_bound rows (S r) b Eb) as Hr.
    rewrite rowSpeed_nth in Ea, Eb by lia.
    injection Ea as <-. injection Eb as <-.
    unfold rowSpeedOf. destruct (Nat.leb_spec rows 1) as [Hle|Hgt]; [lia|].
    assert (Hd : 0 < INR rows - 1).
    { apply lt_INR in Hgt. cbn in Hgt. lra. }
    rewrite S_INR.
    set (d := INR rows - 1) in *. set (x := INR r). clearbody d x.
    assert (Hi : 0 < / d) by (apply Rinv_0_lt_compat; exact Hd).
    unfold Rdiv. set (i := / d) in *. clearbody i. split; nra.
Qed.

Lemma rows_INR (rev : Revision) : INR (rowCount rev) = rows rev.
Proof. destruct rev; cbn; lra. Qed.

Lemma rowPositions_nth (rev : Revision) (i : nat) (row : RowPosition) :
  nth_error (rowPositions rev) i = Some row ->
  (i < totalRows rev)%nat /\ row = rowPositionOf rev i.
Proof.
  intros E.
  assert (Hi : (i < totalRows rev)%nat).
  { assert (H : (i < List.length (rowPositions rev))%nat)
      by (apply nth_error_Some; congruence).
    unfold rowPositions in H. rewrite length_map, length_seq in H. exact H. }
  split; [exact Hi|].
  unfold rowPositions in E. rewrite nth_error_map, nth_error_seq in E.
  destruct (Nat.ltb_spec i (totalRows rev)); [|lia].
  cbn in E. congruence.
Qed.

(** X17. The tube repeats seamlessly: the row one block of [rows] further
    up stands exactly one loop height higher and is the same row again,
    tile for tile (places, turns and textures), and the frame gives it the
    same rotation. *)
Theorem tube_rows_repeat
        (rev : Revision) (tubeAngleNow : R) (i : nat) (a b : RowPosition) :
  nth_error (rowPositions rev) i = Some a ->
  nth_error (rowPositions rev) (i + rowCount rev) = Some b ->
  y b = y a + loopHeight rev
  /\ baseRow b = baseRow a
  /\ rowOffset b = rowOffset a
  /\ rowTiles rev b = rowTiles rev a
  /\ rowRotationY rev tubeAngleNow (i + rowCount rev)
     = rowRotationY rev tubeAngleNow i.
Proof.
  intros Ea Eb.
  destruct (rowPositions_nth rev i a Ea) as [_ ->].
  destruct (rowPositions_nth rev _ b Eb) as [_ ->].
  assert (Hmod : ((i + rowCount rev) mod rowCount rev = i mod rowCount rev)%nat).
  { replace (i + rowCount rev)%nat with (i + 1 * rowCount rev)%nat by lia.
    apply Nat.Div0.mod_add. }
  assert (Hb : baseRow (rowPositionOf rev (i + rowCount rev))
               = baseRow (rowPositionOf rev i))
    by (cbn [rowPositionOf baseRow]; exact Hmod).
  assert (Ho : rowOffset (rowPositionOf rev (i + rowCount rev))
               = rowOffset (rowPositionOf rev i))
    by (cbn [rowPositionOf rowOffset]; rewrite Hmod; reflexivity).
  split; [|split; [exact Hb|split; [exact Ho|split]]].
  - cbn [rowPositionOf y]. rewrite plus_INR, rows_INR.
    unfold loopHeight. ring.
  - unfold rowTiles. apply map_ext. intros col.
    unfold tileOf. rewrite Hb, Ho. reflexivity.
  - unfold rowRotationY. rewrite Hmod. reflexivity.
Qed.

Lemma tube_rows_repeat_witness :
  let a := rowPositionOf Part000 1 in
  let b := rowPositionOf Part000 4 in
  y b = y a + loopHeight Part000
  /\ baseRow b = baseRow a
  /\ rowOffset b = rowOffset a
  /\ rowTiles Part000 b = rowTiles Part000 a
  /\ rowRotationY Part000 2 (1 + rowCount Part000)
     = rowRotationY Part000 2 1.
Proof.
  apply (tube_rows_repeat Part000 2 1); reflexivity.
Defined.

(** X18. No row is left without a speed: for every row index the frame
    finds an entry of [rowSpeed], and the row turns by the tube angle
    times a factor between 0.65 and 1.55. *)
Theorem row_rotation_defined (rev : Revision) (tubeAngleNow : R) (i : nat) :
  exists speed : R,
    rowRotationY rev tubeAngleNow i = Some (tubeAngleNow * speed)
    /\ 0.65 <= speed <= 1.55.
Proof.
  assert (Hr : (i mod rowCount rev < rowCount rev)%nat)
    by (apply Nat.mod_upper_bound; destruct rev; cbn; lia).
  exists (rowSpeedOf (rowCount rev) (i mod rowCount rev)).
  unfold rowRotationY. rewrite rowSpeed_nth by exact Hr.
  split; [reflexivity | apply rowSpeedOf_range; exact Hr].
Qed.

(** X19. Every tile stands on the cylinder of radius 4 around the axis,
    its texture index is a valid index of the 7 images, and from one
    column to the next the tiles of a row are a [cols]-th of a turn
    apart. *)
Theorem tiles_on_cylinder (rev : Revision) (row : RowPosition) (col : nat) :
  let tile := tileOf rev row col in
  tileX tile * tileX tile + tileZ tile * tileZ tile = radius * radius
  /\ (texIndex tile < imageCount)%nat
  /\ tileRy (tileOf rev row (S col)) - tileRy tile
     = - (2 * PI / INR (cols rev)).
Proof.
  cbn [tileOf tileX tileZ tileRy texIndex]. split; [|split].
  - set (theta := (INR col + rowOffset row) / INR (cols rev) * PI * 2).
    pose proof (sin2_cos2 theta) as H. unfold Rsqr in H.
    set (sn := sin theta) in *. set (cs := cos theta) in *. clearbody sn cs.
    unfold radius. nra.
  - apply Nat.mod_upper_bound. unfold imageCount. lia.
  - rewrite S_INR.
    assert (Hc : INR (cols rev) <> 0) by (destruct rev; cbn; lra).
    field. exact Hc.
Qed.

(** *** [onPointerMove] at and beyond the rectangle *)

Lemma clamp01_low (u : R) : u <= 0 -> clamp01 u = 0.
Proof. intros H. unfold clamp01. split_rminmax; lra. Qed.

Lemma clamp01_high (u : R) : 1 <= u -> clamp01 u = 1.
Proof. intros H. unfold clamp01. split_rminmax; lra. Qed.

(** X23. A pointer left of, right of, above or below the rectangle moves
    the focus target no farther than the side of the square
    [[0.3, 0.7] x [0.3, 0.7]] it left by (y flipped: above is 0.7), the
    middle of the rectangle gives (0.5, 0.5), and a rectangle without width
    or height leaves the state as it was. *)
Theorem pointer_move_edges (cx cy l t w h : R) (s : State) :
  (w <= 0 \/ h <= 0 -> onPointerMove cx cy l t w h s = s)
  /\ (0 < w -> 0 < h ->
      let target := targetCenterUv (onPointerMove cx cy l t w h s) in
      (cx <= l -> vx target = 0.3)
      /\ (l + w <= cx -> vx target = 0.7)
      /\ (cy <= t -> vy target = 0.7)
      /\ (t + h <= cy -> vy target = 0.3)
      /\ (cx = l + w / 2 -> cy = t + h / 2 -> target = mkVector2 0.5 0.5)).
Proof.
  split.
  - intros [Hw|Hh]; unfold onPointerMove.
    + destruct (Rle_dec w 0); [reflexivity | lra].
    + destruct (Rle_dec w 0); [reflexivity|].
      destruct (Rle_dec h 0); [reflexivity | lra].
  - intros Hw Hh target. subst target.
    rewrite onPointerMove_target by assumption. cbn [vx vy].
    assert (Hdiv : forall a b, 0 < b ->
                   (a <= 0 -> a / b <= 0) /\ (b <= a -> 1 <= a / b)
                   /\ (a = b / 2 -> a / b = 1 / 2)).
    { intros a b Hb. repeat split; intros Ha.
      - apply Rmult_le_reg_r with b; [lra|].
        unfold Rdiv. rewrite Rmult_assoc, Rinv_l by lra. lra.
      - apply Rmult_le_reg_r with b; [lra|].
        unfold Rdiv. rewrite Rmult_assoc, Rinv_l by lra. lra.
      - subst a. field. lra. }
    destruct (Hdiv (cx - l) w Hw) as (X1 & X2 & X3).
    destruct (Hdiv (cy - t) h Hh) as (Y1 & Y2 & Y3).
    repeat split.
    + intros H. rewrite clamp01_low by (apply X1; lra). lra.
    + intros H. rewrite clamp01_high by (apply X2; lra). lra.
    + intros H. rewrite clamp01_low by (apply Y1; lra). lra.
    + intros H. rewrite clamp01_high by (apply Y2; lra). lra.
    + intros Hx Hy. rewrite X3, Y3 by lra.
      rewrite !clamp01_id by lra. f_equal; lra.
Qed.

Lemma pointer_move_edges_witness :
  let target := targetCenterUv (onPointerMove (-5) 300 0 0 800 600 initial) in
  (-5 <= 0 -> vx target = 0.3)
  /\ (0 + 800 <= -5 -> vx target = 0.7)
  /\ (300 <= 0 -> vy target = 0.7)
  /\ (0 + 600 <= 300 -> vy target = 0.3)
  /\ (-5 = 0 + 800 / 2 -> 300 = 0 + 600 / 2 -> target = mkVector2 0.5 0.5).
Proof.
  apply (pointer_move_edges (-5) 300 0 0 800 600 initial); lra.
Defined.

(** *** The vertex shader *)

Lemma smoothstep_range (edge0 edge1 x : R) : 0 <= smoothstep edge0 edge1 x <= 1.
Proof.
  unfold smoothstep, clamp.
  set (q := (x - edge0) / (edge1 - edge0)). clearbody q.
  assert (Ht : 0 <= Rmin (Rmax q 0) 1 <= 1) by (split_rminmax; lra).
  set (t := Rmin (Rmax q 0) 1) in *. clearbody t.
  assert (H1 : 0 <= t * t * (3 - 2 * t)) by (apply Rmult_le_pos; nra).
  assert (H2 : 1 - t * t * (3 - 2 * t) = (1 - t) * (1 - t) * (1 + 2 * t))
    by ring.
  assert (H3 : 0 <= (1 - t) * (1 - t) * (1 + 2 * t))
    by (apply Rmult_le_pos; nra).
  lra.
Qed.

Lemma smoothstep_above (edge0 edge1 x : R) :
  edge0 < edge1 -> edge1 <= x -> smoothstep edge0 edge1 x = 1.
Proof.
  intros He Hx. unfold smoothstep, clamp.
  assert (Hq : 1 <= (x - edge0) / (edge1 - edge0)).
  { apply Rmult_le_reg_r with (edge1 - edge0); [lra|].
    unfold Rdiv. rewrite Rmult_assoc, Rinv_l by lra. lra. }
  set (q := (x - edge0) / (edge1 - edge0)) in *. clearbody q.
  assert (Ht : Rmin (Rmax q 0) 1 = 1) by (split_rminmax; lra).
  rewrite Ht. ring.
Qed.

Lemma smoothstep_below (edge0 edge1 x : R) :
  edge0 < edge1 -> x <= edge0 -> smoothstep edge0 edge1 x = 0.
Proof.
  intros He Hx. unfold smoothstep, clamp.
  assert (Hq : (x - edge0) / (edge1 - edge0) <= 0).
  { apply Rmult_le_reg_r with (edge1 - edge0); [lra|].
    unfold Rdiv. rewrite Rmult_assoc, Rinv_l by lra. lra. }
  set (q := (x - edge0) / (edge1 - edge0)) in *. clearbody q.
  assert (Ht : Rmin (Rmax q 0) 1 = 0) by (split_rminmax; lra).
  rewrite Ht. ring.
Qed.

Lemma distance_ge (a b : Vector2) (r : R) :
  0 <= r ->
  r * r <= (vx a - vx b) * (vx a - vx b) + (vy a - vy b) * (vy a - vy b) ->
  r <= distance a b.
Proof.
  intros Hr H. unfold distance.
  rewrite <- (sqrt_square r Hr). apply sqrt_le_1_alt. exact H.
Qed.

(** X20. The displacement of the grid is never negative and never more
    than 2.25, the two amplitudes together; on the border of the plane it
    is at least the edge amplitude 1.35. *)
Theorem displacement_bounded (center vUv : Vector2) :
  0 <= zOffset center vUv <= 2.25
  /\ (dEdge vUv <= 0 -> 1.35 <= zOffset center vUv).
Proof.
  unfold zOffset, uEdgeAmp, uCenterAmp.
  pose proof (smoothstep_range 0 uEdgeWidth (dEdge vUv)) as He.
  pose proof (smoothstep_range 0 uCenterRadius (distance vUv center)) as Hc.
  split.
  - set (e := smoothstep 0 uEdgeWidth (dEdge vUv)) in *.
    set (c := smoothstep 0 uCenterRadius (distance vUv center)) in *.
    clearbody e c. lra.
  - intros Hb.
    rewrite (smoothstep_below 0 uEdgeWidth) by (unfold uEdgeWidth; lra).
    set (c := smoothstep 0 uCenterRadius (distance vUv center)) in *.
    clearbody c. lra.
Qed.

Lemma displacement_bounded_witness :
  1.35 <= zOffset (mkVector2 0.5 0.5) (mkVector2 0 0.4).
Proof.
  apply (displacement_bounded (mkVector2 0.5 0.5) (mkVector2 0 0.4)).
  unfold dEdge. cbn [vx vy]. split_rminmax; lra.
Defined.

(** X21. Away from the border by the edge width 0.14 and away from the
    focus point by the radius 0.22 the grid is flat. *)
Theorem displacement_flat (center vUv : Vector2) :
  uEdgeWidth <= dEdge vUv -> uCenterRadius <= distance vUv center ->
  zOffset center vUv = 0.
Proof.
  intros He Hc. unfold zOffset.
  rewrite (smoothstep_above 0 uEdgeWidth) by (unfold uEdgeWidth in *; lra).
  rewrite (smoothstep_above 0 uCenterRadius)
    by (unfold uCenterRadius in *; lra).
  ring.
Qed.

Lemma displacement_flat_witness :
  zOffset (mkVector2 0.5 0.5) (mkVector2 0.8 0.5) = 0.
Proof.
  apply (displacement_flat (mkVector2 0.5 0.5) (mkVector2 0.8 0.5)).
  - unfold uEdgeWidth, dEdge. cbn [vx vy]. split_rminmax; lra.
  - unfold uCenterRadius. apply distance_ge; cbn [vx vy]; lra.
Defined.

(** X22. In every run the bump under the focus point is exactly the
    center amplitude 0.9 high: the focus point stays farther from the
    border than the edge width, so the raised border never adds to it. *)
Theorem focus_bump_height (rev : Revision) (inputs : list Input) :
  let center := uCenter (run rev initial inputs) in
  uEdgeWidth <= dEdge center /\ zOffset center center = 0.9.
Proof.
  assert (H : forall l s,
             inSquare (targetCenterUv s) -> inSquare (uCenter s) ->
             inSquare (uCenter (run rev s l))).
  { induction l as [|i l IH]; intros s Ht Hu; [exact Hu|].
    cbn [run fold_left]. destruct (step_inSquare rev s i Ht Hu).
    apply IH; assumption. }
  intros center.
  assert (Hin : inSquare center)
    by (apply H; unfold inSquare; cbn; lra).
  clearbody center. destruct Hin as [Hx Hy].
  assert (He : uEdgeWidth <= dEdge center)
    by (unfold uEdgeWidth, dEdge; split_rminmax; lra).
  split; [exact He|]. unfold zOffset.
  rewrite (smoothstep_above 0 uEdgeWidth) by (unfold uEdgeWidth in *; lra).
  assert (Hd : distance center center = 0).
  { unfold distance.
    replace ((vx center - vx center) * (vx center - vx center)
             + (vy center - vy center) * (vy center - vy center))
      with 0 by ring.
    apply sqrt_0. }
  rewrite Hd, (smoothstep_below 0 uCenterRadius)
    by (unfold uCenterRadius; lra).
  unfold uEdgeAmp, uCenterAmp. lra.
Qed.

End SceneExtra.
